(** * Verification of the analytical core of [app.py]

    The development embeds the pure part of [app.py] -- the ticker
    normaliser [format_ticker], the market classifier
    [get_market_config], the Wilder RSI [rsi_wilder] and the analysis
    [calculate_logic] together with the guard of the UI branch that calls
    it -- and states the properties of the specification about them.

    Modelling conventions.
    - A Python [str] is a list of characters.  Only the ASCII range is
      interpreted: [isspace], [upper] and [isdigit] leave every character
      above 127 alone, and the properties that depend on it are stated for
      ASCII inputs.  [format_ticker] is embedded a second time on strings
      of code points ([Unicode]), with the character tables as parameters.
    - A Python/NumPy float is an exact rational or NaN ([None]); rounding
      and overflow of binary64 are not modelled.  Comparisons with NaN are
      false, arithmetic on NaN gives NaN.  The zone calculator, whose
      order properties depend on rounding, is embedded as well in an
      arithmetic that rounds and has infinities ([Rounded]) and on
      binary64 numbers ([Binary64]).
    - A raised exception is a value [Raise name] carrying the name of the
      exception class. *)

From Stdlib Require Import String Ascii List Sorted Bool Arith ZArith QArith Qabs Qminmax Qround.
From Stdlib Require Import Lia Lqa.
From Stdlib Require PrimFloat.
Import ListNotations.

Local Close Scope Q_scope.
Local Open Scope nat_scope.
Local Open Scope list_scope.

(** ** Exceptions *)

Inductive result (A : Type) : Type :=
| Ok (a : A)
| Raise (exn : string).

Arguments Ok {A} a.
Arguments Raise {A} exn.

Definition bind {A B : Type} (r : result A) (k : A -> result B) : result B :=
  match r with
  | Ok a => k a
  | Raise e => Raise e
  end.

Notation "x <- r ;; k" := (bind r (fun x => k))
  (at level 61, r at next level, right associativity).

(** Positional indexing [l[i]] for [0 <= i]. *)
Definition getitem {A : Type} (l : list A) (i : nat) : result A :=
  match nth_error l i with
  | Some a => Ok a
  | None => Raise "IndexError"
  end.

(** ** Python strings *)

Module PyStr.

Definition str := list ascii.

Definition lit (s : string) : str := list_ascii_of_string s.

Definition isspace (c : ascii) : bool :=
  let n := nat_of_ascii c in
  ((9 <=? n) && (n <=? 13)) || ((28 <=? n) && (n <=? 32)).

Definition isdigit_char (c : ascii) : bool :=
  let n := nat_of_ascii c in (48 <=? n) && (n <=? 57).

Definition upper_char (c : ascii) : ascii :=
  let n := nat_of_ascii c in
  if (97 <=? n) && (n <=? 122) then ascii_of_nat (n - 32) else c.

Fixpoint lstrip (s : str) : str :=
  match s with
  | [] => []
  | c :: t => if isspace c then lstrip t else s
  end.

Definition rstrip (s : str) : str := rev (lstrip (rev s)).

Definition strip (s : str) : str := rstrip (lstrip s).

Definition upper (s : str) : str := map upper_char s.

Fixpoint startswith (s p : str) {struct p} : bool :=
  match p, s with
  | [], _ => true
  | _ :: _, [] => false
  | x :: p', c :: s' => Ascii.eqb c x && startswith s' p'
  end.

Definition endswith (s suf : str) : bool := startswith (rev s) (rev suf).

(** [s.startswith((a, b, ...))] and [s.endswith((a, b, ...))]. *)
Definition startswith_any (s : str) (ps : list str) : bool :=
  existsb (startswith s) ps.

Definition endswith_any (s : str) (ps : list str) : bool :=
  existsb (endswith s) ps.

(** [c in s] for a one-character [c]. *)
Definition contains (c : ascii) (s : str) : bool := existsb (Ascii.eqb c) s.

(** [s.split(sep)] for a one-character separator. *)
Fixpoint split (sep : ascii) (s : str) : list str :=
  match s with
  | [] => [[]]
  | c :: t =>
      if Ascii.eqb c sep then [] :: split sep t
      else match split sep t with
           | seg :: rest => (c :: seg) :: rest
           | [] => [[c]]
           end
  end.

(** [s.replace(a, b)] for one-character [a] and [b]. *)
Definition replace (a b : ascii) (s : str) : str :=
  map (fun c => if Ascii.eqb c a then b else c) s.

Definition isdigit (s : str) : bool :=
  match s with
  | [] => false
  | _ => forallb isdigit_char s
  end.

(** [s.zfill(width)]: zeros go after a leading sign. *)
Definition zfill (width : nat) (s : str) : str :=
  if width <=? length s then s
  else
    let pad := repeat "0"%char (width - length s) in
    match s with
    | c :: t =>
        if Ascii.eqb c "+" || Ascii.eqb c "-" then c :: pad ++ t
        else pad ++ s
    | [] => pad
    end.

End PyStr.

Import PyStr.

(** ** Section 2 of [app.py]: ticker formatting and market recognition *)

Definition format_ticker (s : str) : result str :=
  match s with
  | [] => Ok (lit "AAPL")
  | _ =>
      let s := upper (strip s) in
      if endswith s (lit ".HK") then
        let parts := split "." s in
        p0 <- getitem parts 0 ;;
        p1 <- getitem parts 1 ;;
        Ok (zfill 5 p0 ++ lit "." ++ p1)
      else if contains "." s && negb (endswith_any s [lit ".SS"; lit ".SZ"]) then
        Ok (replace "." "-" s)
      else if isdigit s && (length s =? 6) then
        if startswith_any s [lit "6"; lit "9"] then Ok (s ++ lit ".SS")
        else Ok (s ++ lit ".SZ")
      else Ok s
  end.

Definition get_market_config (ticker : str) : string * string :=
  let t := upper ticker in
  if endswith t (lit ".HK") then ("HKD $", "港股")%string
  else if endswith_any t [lit ".SS"; lit ".SZ"] then ("CNY ¥", "A股")%string
  else ("USD $", "美股")%string.

(** ** Floats and the pandas operations used by [app.py] *)

Module PyFloat.

Definition float := option Q.

Definition NaN : float := None.

Definition isnan (x : float) : bool :=
  match x with
  | None => true
  | Some _ => false
  end.

Definition lift1 (f : Q -> Q) (a : float) : float :=
  match a with
  | Some x => Some (f x)
  | None => NaN
  end.

Definition lift2 (f : Q -> Q -> Q) (a b : float) : float :=
  match a, b with
  | Some x, Some y => Some (f x y)
  | _, _ => NaN
  end.

Definition fadd := lift2 Qplus.
Definition fsub := lift2 Qminus.
Definition fmul := lift2 Qmult.
Definition fneg := lift1 Qopp.
Definition fabs := lift1 Qabs.

(** Division.  A zero divisor gives NaN here (NumPy gives an infinity or
    NaN); no division of [app.py] reaches that case: every divisor is a
    positive count, a constant, a smoothed loss with its zeros replaced, or
    [1 + rs] with [rs] non-negative. *)
Definition fdiv (a b : float) : float :=
  match a, b with
  | Some x, Some y => if Qeq_bool y 0 then NaN else Some (x / y)%Q
  | _, _ => NaN
  end.

Definition Qlt_bool (x y : Q) : bool := negb (Qle_bool y x).

Definition flt (a b : float) : bool :=
  match a, b with
  | Some x, Some y => Qlt_bool x y
  | _, _ => false
  end.

Definition fgt (a b : float) : bool := flt b a.

(** The builtin [max(a, b)]: [b] replaces [a] only when [b > a]. *)
Definition py_max (a b : float) : float := if fgt b a then b else a.

(** Equality of floats as numbers: NaN only matches NaN here, so that this
    is an equivalence on the model (it is not Python's [==]). *)
Definition feq (a b : float) : Prop :=
  match a, b with
  | Some x, Some y => (x == y)%Q
  | None, None => True
  | _, _ => False
  end.

End PyFloat.

Import PyFloat.

Module Pandas.

Definition zip_with {A B C : Type} (f : A -> B -> C) (a : list A) (b : list B)
  : list C :=
  map (fun p => f (fst p) (snd p)) (combine a b).

(** [s.shift(1)] on the values of a Series. *)
Definition shift (s : list float) : list float :=
  match s with
  | [] => []
  | _ :: _ => NaN :: removelast s
  end.

(** [s.diff()] is [s - s.shift(1)]. *)
Definition diff (s : list float) : list float := zip_with fsub s (shift s).

(** [s.clip(lower=0)] and [s.clip(upper=0)]; NaN stays NaN. *)
Definition clip_lower0 (s : list float) : list float :=
  map (lift1 (fun x => if Qlt_bool x 0 then 0%Q else x)) s.

Definition clip_upper0 (s : list float) : list float :=
  map (lift1 (fun x => if Qlt_bool 0 x then 0%Q else x)) s.

(** [s.ewm(alpha=alpha, adjust=False).mean()], after the loop of pandas'
    [ewm] aggregation with [ignore_na=False] and [min_periods=0]: the running
    mean [weighted] and the weight [old_wt] of the past. *)
Record ewm_state : Type := { weighted : float; old_wt : Q }.

Definition ewm_step (alpha : Q) (st : ewm_state) (cur : float) : ewm_state :=
  match weighted st with
  | Some w =>
      let ow := (old_wt st * (1 - alpha))%Q in
      match cur with
      | Some c =>
          {| weighted :=
               if Qeq_bool w c then Some w
               else Some ((ow * w + alpha * c) / (ow + alpha))%Q;
             old_wt := 1%Q |}
      | None => {| weighted := Some w; old_wt := ow |}
      end
  | None => {| weighted := cur; old_wt := old_wt st |}
  end.

Fixpoint ewm_run (alpha : Q) (st : ewm_state) (vals : list float) : list float :=
  match vals with
  | [] => []
  | cur :: t =>
      let st' := ewm_step alpha st cur in
      weighted st' :: ewm_run alpha st' t
  end.

Definition ewm_mean (alpha : Q) (vals : list float) : list float :=
  match vals with
  | [] => []
  | v0 :: t => v0 :: ewm_run alpha {| weighted := v0; old_wt := 1%Q |} t
  end.

(** [s.replace(0, np.nan)]. *)
Definition replace0 (s : list float) : list float :=
  map (fun x => match x with
                | Some q => if Qeq_bool q 0 then NaN else Some q
                | None => NaN
                end) s.

(** [s.tail(n)]. *)
Definition tail {A : Type} (n : nat) (s : list A) : list A :=
  skipn (length s - n) s.

(** [s.iloc[-1]] and [s.iloc[-2]]. *)
Definition iloc_back {A : Type} (s : list A) (k : nat) : result A :=
  if length s <? k then Raise "IndexError" else getitem s (length s - k).

(** [s.rank(pct=True)]: the rank of a value is the average of the ordinal
    positions its tie group takes in sorted order, divided by the number of
    observations; NaN keeps NaN. *)
Definition observations (s : list float) : list Q :=
  flat_map (fun x => match x with Some q => [q] | None => [] end) s.

Definition count_lt (q : Q) (obs : list Q) : nat :=
  length (filter (fun y => Qlt_bool y q) obs).

Definition count_eq (q : Q) (obs : list Q) : nat :=
  length (filter (fun y => Qeq_bool y q) obs).

Definition Qnat (n : nat) : Q := inject_Z (Z.of_nat n).

Definition rank_average (q : Q) (obs : list Q) : Q :=
  let dups := count_eq q obs in
  let sum_ranks := list_sum (seq (count_lt q obs + 1) dups) in
  (Qnat sum_ranks / Qnat dups)%Q.

Definition rank_pct (s : list float) : list float :=
  let obs := observations s in
  map (lift1 (fun q => (rank_average q obs / Qnat (length obs))%Q)) s.

(** [s.rolling(w).mean()] with the default [min_periods = w]: a value is
    defined only over a full window of [w] observations. *)
Definition window_mean (w : nat) (win : list float) : float :=
  if (length win =? w) && forallb (fun x => negb (isnan x)) win then
    fdiv (fold_left fadd win (Some 0%Q)) (Some (Qnat w))
  else NaN.

Definition rolling_mean (w : nat) (s : list float) : list float :=
  map (fun i => window_mean w (skipn (i + 1 - w) (firstn (i + 1) s)))
      (seq 0 (length s)).

(** A Series with its row labels, for the operations that align on them. *)
Definition Series := list (nat * float).

Definition values (s : Series) : list float := map snd s.

Definition dropna (s : Series) : Series :=
  filter (fun p => negb (isnan (snd p))) s.

Definition shift_labelled (s : Series) : Series :=
  combine (map fst s) (shift (values s)).

Definition loc (s : Series) (i : nat) : float :=
  match find (fun p => fst p =? i) s with
  | Some p => snd p
  | None => NaN
  end.

(** [a - b] where the labels of [b] are among those of [a]: the result has
    the labels of [a], and NaN where [b] has no row. *)
Definition sub_aligned (a b : Series) : Series :=
  map (fun p => (fst p, fsub (snd p) (loc b (fst p)))) a.

(** Row-wise [max(axis=1)] of three columns, NaN skipped. *)
Definition skipna_max (a b : float) : float :=
  match a, b with
  | Some x, Some y => Some (if Qlt_bool x y then y else x)
  | Some x, None => Some x
  | None, _ => b
  end.

End Pandas.

Import Pandas.

(** ** Section 3 of [app.py]: the core algorithm *)

(** Lines 45-49 of [rsi_wilder]: the smoothed gain and loss. *)
Definition gain (close : list float) : list float := clip_lower0 (diff close).

Definition loss (close : list float) : list float :=
  map fneg (clip_upper0 (diff close)).

Definition avg_gain (close : list float) (period : positive) : list float :=
  ewm_mean (1 # period)%Q (gain close).

Definition avg_loss (close : list float) (period : positive) : list float :=
  ewm_mean (1 # period)%Q (loss close).

(** [100 - 100 / (1 + rs)]. *)
Definition rsi_of_rs (rs : float) : float :=
  fsub (Some 100%Q) (fdiv (Some 100%Q) (fadd (Some 1%Q) rs)).

Definition rsi_wilder (close : list float) (period : positive) : list float :=
  let rs := zip_with fdiv (avg_gain close period) (replace0 (avg_loss close period)) in
  map rsi_of_rs rs.

(** The price table: one row per trading day, in date order; the label of a
    row is its position. *)
Record Bar : Type := { High : float; Low : float; Close : float }.

Definition DataFrame := list Bar.

Definition col (f : Bar -> float) (df : DataFrame) : Series :=
  combine (seq 0 (length df)) (map f df).

(** The metadata dictionary [tk.info]. *)
Inductive info_value : Type :=
| IStr (s : string)
| INum (q : Q)
| INone.

Definition Info := list (string * info_value).

(** [info.get(key)]. *)
Definition info_get (info : Info) (key : string) : info_value :=
  match find (fun p => String.eqb (fst p) key) info with
  | Some p => snd p
  | None => INone
  end.

(** The record [calculate_logic] returns. *)
Module Res.

Record Zones : Type :=
  { conservative : float * float;
    neutral : float * float;
    aggressive : float * float }.

Record Adds : Type := { first : float; pullback : float }.

Record Metrics : Type := { rsi : float; pr_3y : float; atr : float }.

Record t : Type :=
  { last : float;
    sig : string * string * string;
    zones : Zones;
    adds : Adds;
    metrics : Metrics;
    cond : bool * bool * bool }.

End Res.

(** Lines 65-68: the signal from the three conditions. *)
Definition signal (cond_A cond_B cond_C : bool) : string * string * string :=
  (if cond_A && cond_B && cond_C then ("加仓", "🔵", "确认反转，极高性价比")
   else if cond_A && cond_B then ("建仓", "🟢", "进入价值区，等待拐头")
   else if cond_A || cond_B then ("试探", "🟡", "满足单一底部特征")
   else ("观察", "⚪", "暂无明显底部信号"))%string.

(** Line 70: the true range of every row of [df]. *)
Definition true_range (df : DataFrame) (close : Series) : list float :=
  let prev := shift_labelled close in
  let hl := values (sub_aligned (col High df) (col Low df)) in
  let hc := map fabs (values (sub_aligned (col High df) prev)) in
  let lc := map fabs (values (sub_aligned (col Low df) prev)) in
  zip_with skipna_max (zip_with skipna_max hl hc) lc.

(** Lines 72-79: width, centre and the three bands. *)
Definition zone_width (atr last : float) : float :=
  py_max (fmul (Some 1.8%Q) atr) (fmul last (Some 0.08%Q)).

Definition zone_center (last : float) : float := fmul last (Some 0.92%Q).

Definition make_zones (center width : float) : Res.Zones :=
  {| Res.conservative :=
       (fadd center (fmul (Some 0.3%Q) width), fadd center (fmul (Some 0.8%Q) width));
     Res.neutral :=
       (fsub center (fmul (Some 0.2%Q) width), fadd center (fmul (Some 0.2%Q) width));
     Res.aggressive :=
       (fsub center (fmul (Some 0.8%Q) width), fsub center (fmul (Some 0.3%Q) width)) |}.

(** Lines 81-84. *)
Definition make_adds (z : Res.Zones) : Res.Adds :=
  {| Res.first := fst (Res.neutral z);
     Res.pullback :=
       fdiv (fadd (fst (Res.aggressive z)) (snd (Res.aggressive z))) (Some 2%Q) |}.

(** Line 59: [close.tail(756).rank(pct=True).iloc[-1]]. *)
Definition percentile_rank (close : list float) : result float :=
  iloc_back (rank_pct (tail 756 close)) 1.

(** Line 71: [tr.rolling(14).mean().iloc[-1]]. *)
Definition average_true_range (tr : list float) : result float :=
  iloc_back (rolling_mean 14 tr) 1.

Definition calculate_logic (df : DataFrame) (info : Info) : result Res.t :=
  let close := dropna (col Close df) in
  last <- iloc_back (values close) 1 ;;
  let rsi := rsi_wilder (values close) 14 in
  rsi_last <- iloc_back rsi 1 ;;
  rsi_prev <- (if 2 <? length rsi then iloc_back rsi 2 else Ok rsi_last) ;;
  pr_3y <- percentile_rank (values close) ;;
  let cond_A := flt pr_3y (Some 0.30%Q) in
  let cond_B := flt rsi_last (Some 35%Q) in
  let cond_C := fgt rsi_last rsi_prev in
  let sig := signal cond_A cond_B cond_C in
  let tr := true_range df close in
  atr <- average_true_range tr ;;
  let width := zone_width atr last in
  let center := zone_center last in
  let zones := make_zones center width in
  let adds := make_adds zones in
  Ok {| Res.last := last;
        Res.sig := sig;
        Res.zones := zones;
        Res.adds := adds;
        Res.metrics := {| Res.rsi := rsi_last; Res.pr_3y := pr_3y; Res.atr := atr |};
        Res.cond := (cond_A, cond_B, cond_C) |}.

(** ** Section 4 of [app.py]: the branch of the UI that runs the analysis *)

(** What the page shows: the report with the metadata fields it could
    format ([None] renders as a dash), or the error box. *)
Inductive shown_name : Type :=
| FromInfo (v : info_value)
| Ticker (t : str).

Inductive page : Type :=
| Report (res : Res.t) (name : shown_name) (pe ps : option Q)
| ErrorBox.

(** Truth value of a metadata value, for [a or b]. *)
Definition truthy (v : info_value) : bool :=
  match v with
  | IStr s => negb (String.eqb s "")
  | INum q => negb (Qeq_bool q 0)
  | INone => false
  end.

(** [info.get('shortName') or info.get('longName') or ticker]. *)
Definition display_name (info : Info) (ticker : str) : shown_name :=
  let short := info_get info "shortName" in
  let long := info_get info "longName" in
  if truthy short then FromInfo short
  else if truthy long then FromInfo long
  else Ticker ticker.

Definition number_or_dash (v : info_value) : option Q :=
  match v with
  | INum q => Some q
  | _ => None
  end.

(** Lines 117-169. *)
Definition analysis_branch (ticker : str) (df : DataFrame) (info : Info)
  : result page :=
  match df with
  | [] => Ok ErrorBox
  | _ :: _ =>
      res <- calculate_logic df info ;;
      Ok (Report res (display_name info ticker)
                 (number_or_dash (info_get info "trailingPE"))
                 (number_or_dash (info_get info "priceToSalesTrailing12Months")))
  end.

(** ** [format_ticker] on strings of code points

    A Python [str] is a sequence of code points, and [str.strip],
    [str.upper] and [str.isdigit] read Unicode's character tables.  Here the
    tables are parameters: which code points are whitespace, which code
    points the upper-case form of a code point consists of (one to three of
    them), and which code points are digits.  [format_ticker] below is lines
    17-35 over such strings, for any tables. *)

Module Unicode.

Definition ustr := list N.

(** The code point of an ASCII character, and an ASCII literal. *)
Definition cp (c : ascii) : N := N_of_ascii c.

Definition ulit (s : string) : ustr := map N_of_ascii (list_ascii_of_string s).

Record tables : Type :=
  { isspace : N -> bool;
    upper_of : N -> list N;
    isdigit_cp : N -> bool }.

(** What the properties below use of Python's tables: the dot and [K] are
    not whitespace; the dot, [H] and [K] are their own upper-case forms; and
    the dot appears in the upper-case form of no other code point. *)
Record tables_ok (T : tables) : Prop :=
  { dot_not_space : isspace T (cp ".") = false;
    K_not_space : isspace T (cp "K") = false;
    upper_dot : upper_of T (cp ".") = [cp "."];
    upper_H : upper_of T (cp "H") = [cp "H"];
    upper_K : upper_of T (cp "K") = [cp "K"];
    dot_only_from_dot : forall c, In (cp ".") (upper_of T c) -> c = cp "." }.

Section Ops.

Variable T : tables.

Fixpoint lstrip (s : ustr) : ustr :=
  match s with
  | [] => []
  | c :: t => if isspace T c then lstrip t else s
  end.

Definition rstrip (s : ustr) : ustr := rev (lstrip (rev s)).

Definition strip (s : ustr) : ustr := rstrip (lstrip s).

Definition upper (s : ustr) : ustr := flat_map (upper_of T) s.

Fixpoint startswith (s p : ustr) {struct p} : bool :=
  match p, s with
  | [], _ => true
  | _ :: _, [] => false
  | x :: p', c :: s' => N.eqb c x && startswith s' p'
  end.

Definition endswith (s suf : ustr) : bool := startswith (rev s) (rev suf).

Definition startswith_any (s : ustr) (ps : list ustr) : bool :=
  existsb (startswith s) ps.

Definition endswith_any (s : ustr) (ps : list ustr) : bool :=
  existsb (endswith s) ps.

Definition contains (c : N) (s : ustr) : bool := existsb (N.eqb c) s.

Fixpoint split (sep : N) (s : ustr) : list ustr :=
  match s with
  | [] => [[]]
  | c :: t =>
      if N.eqb c sep then [] :: split sep t
      else match split sep t with
           | seg :: rest => (c :: seg) :: rest
           | [] => [[c]]
           end
  end.

Definition replace (a b : N) (s : ustr) : ustr :=
  map (fun c => if N.eqb c a then b else c) s.

Definition isdigit (s : ustr) : bool :=
  match s with
  | [] => false
  | _ => forallb (isdigit_cp T) s
  end.

(** [s.zfill(width)]: the width counts code points; zeros go after a
    leading sign. *)
Definition zfill (width : nat) (s : ustr) : ustr :=
  if width <=? length s then s
  else
    let pad := repeat (cp "0") (width - length s) in
    match s with
    | c :: t =>
        if N.eqb c (cp "+") || N.eqb c (cp "-") then c :: pad ++ t
        else pad ++ s
    | [] => pad
    end.

Definition format_ticker (s : ustr) : result ustr :=
  match s with
  | [] => Ok (ulit "AAPL")
  | _ =>
      let s := upper (strip s) in
      if endswith s (ulit ".HK") then
        let parts := split (cp ".") s in
        p0 <- getitem parts 0 ;;
        p1 <- getitem parts 1 ;;
        Ok (zfill 5 p0 ++ ulit "." ++ p1)
      else if contains (cp ".") s && negb (endswith_any s [ulit ".SS"; ulit ".SZ"]) then
        Ok (replace (cp ".") (cp "-") s)
      else if isdigit s && (length s =? 6) then
        if startswith_any s [ulit "6"; ulit "9"] then Ok (s ++ ulit ".SS")
        else Ok (s ++ ulit ".SZ")
      else Ok s
  end.

End Ops.

(** A fragment of Python's tables to run examples with: the ASCII range,
    and beyond it the whitespace U+0085, U+00A0 and U+3000, the letter
    U+00DF whose upper-case form is [SS], and the full-width digits
    U+FF10 to U+FF19. *)
Definition sample_tables : tables :=
  {| isspace := fun c =>
       (((9 <=? c) && (c <=? 13)) || ((28 <=? c) && (c <=? 32))
        || (c =? 133) || (c =? 160) || (c =? 12288))%N;
     upper_of := fun c =>
       (if (97 <=? c) && (c <=? 122) then [c - 32]
        else if c =? 223 then [83; 83]
        else [c])%N;
     isdigit_cp := fun c =>
       (((48 <=? c) && (c <=? 57)) || ((65296 <=? c) && (c <=? 65305)))%N |}.

(** The input [７.b.HK], whose first character is the full-width digit
    seven, U+FF17. *)
Definition fullwidth_input : ustr := 65303%N :: ulit ".b.HK".

End Unicode.

(** ** Lines 72-79 in a rounded arithmetic

    Every operation of a binary floating-point arithmetic returns the exact
    result rounded to the format: to a value of the format, or to an
    infinity when the exact result is out of range.  The rounding is the
    parameter [rnd]; binary64 is one such arithmetic. *)

Module Rounded.

Inductive xfloat : Type :=
| XNaN
| XInf (negative : bool)
| XFin (q : Q).

Definition xisnan (a : xfloat) : bool :=
  match a with
  | XNaN => true
  | _ => false
  end.

(** [a < b]; false when either is NaN. *)
Definition xltb (a b : xfloat) : bool :=
  match a, b with
  | XNaN, _ | _, XNaN => false
  | XInf true, XInf true => false
  | XInf true, _ => true
  | XInf false, _ => false
  | XFin _, XInf n => negb n
  | XFin x, XFin y => Qlt_bool x y
  end.

(** [a <= b] between two values that are not NaN. *)
Definition xle (a b : xfloat) : Prop :=
  xisnan a = false /\ xisnan b = false /\ xltb b a = false.

Definition xlt (a b : xfloat) : Prop := xltb a b = true.

Record format : Type := { rnd : Q -> xfloat }.

(** [q] is a value of the format. *)
Definition representable (F : format) (q : Q) : Prop :=
  xle (rnd F q) (XFin q) /\ xle (XFin q) (rnd F q).

(** Rounding is monotone (so it never gives NaN), and 0, 1/8, 1 and 2 are
    values of the format. *)
Record format_ok (F : format) : Prop :=
  { rnd_mono : forall x y : Q, (x <= y)%Q -> xle (rnd F x) (rnd F y);
    rnd_0 : representable F 0;
    rnd_eighth : representable F (1 # 8);
    rnd_1 : representable F 1;
    rnd_2 : representable F 2 }.

Section Ops.

Variable F : format.

Definition xneg (a : xfloat) : xfloat :=
  match a with
  | XNaN => XNaN
  | XInf n => XInf (negb n)
  | XFin q => XFin (- q)
  end.

Definition xadd (a b : xfloat) : xfloat :=
  match a, b with
  | XNaN, _ | _, XNaN => XNaN
  | XFin x, XFin y => rnd F (x + y)
  | XInf n, XFin _ => XInf n
  | XFin _, XInf n => XInf n
  | XInf n, XInf m => if Bool.eqb n m then XInf n else XNaN
  end.

Definition xsub (a b : xfloat) : xfloat := xadd a (xneg b).

Definition xmul (a b : xfloat) : xfloat :=
  match a, b with
  | XNaN, _ | _, XNaN => XNaN
  | XFin x, XFin y => rnd F (x * y)
  | XInf n, XFin y | XFin y, XInf n =>
      if Qeq_bool y 0 then XNaN else XInf (xorb n (Qlt_bool y 0))
  | XInf n, XInf m => XInf (xorb n m)
  end.

(** A decimal literal of the source is the value of the format nearest to
    it. *)
Definition literal (q : Q) : xfloat := rnd F q.

(** The builtin [max(a, b)]. *)
Definition py_max (a b : xfloat) : xfloat := if xltb a b then b else a.

Record zones : Type :=
  { conservative : xfloat * xfloat;
    neutral : xfloat * xfloat;
    aggressive : xfloat * xfloat }.

Definition zone_width (atr last : xfloat) : xfloat :=
  py_max (xmul (literal 1.8) atr) (xmul last (literal 0.08)).

Definition zone_center (last : xfloat) : xfloat := xmul last (literal 0.92).

Definition make_zones (center width : xfloat) : zones :=
  {| conservative :=
       (xadd center (xmul (literal 0.3) width), xadd center (xmul (literal 0.8) width));
     neutral :=
       (xsub center (xmul (literal 0.2) width), xadd center (xmul (literal 0.2) width));
     aggressive :=
       (xsub center (xmul (literal 0.8) width), xsub center (xmul (literal 0.3) width)) |}.

End Ops.

(** The arithmetic that does not round. *)
Definition exact : format := {| rnd := XFin |}.

(** An arithmetic with few values, to run examples with: every result is
    rounded down to a multiple of 1/8, and to an infinity beyond 1000. *)
Definition coarse : format :=
  {| rnd := fun q =>
       if Qlt_bool 1000 q then XInf false
       else if Qlt_bool q (-1000) then XInf true
       else XFin (Qfloor (q * 8) # 8) |}.

End Rounded.

(** ** Lines 72-79 in binary64

    The same lines on the kernel's binary64 numbers; each decimal literal
    stands for the binary64 value nearest to it, as in Python. *)

Module Binary64.

Import PrimFloat.

#[local] Set Warnings "-inexact-float".

(** The builtin [max(a, b)]. *)
Definition py_max (a b : PrimFloat.float) : PrimFloat.float :=
  if PrimFloat.ltb a b then b else a.

Definition zone_width (atr last : PrimFloat.float) : PrimFloat.float :=
  py_max (PrimFloat.mul 1.8%float atr) (PrimFloat.mul last 0.08%float).

Definition zone_center (last : PrimFloat.float) : PrimFloat.float :=
  PrimFloat.mul last 0.92%float.

Record zones : Type :=
  { conservative : PrimFloat.float * PrimFloat.float;
    neutral : PrimFloat.float * PrimFloat.float;
    aggressive : PrimFloat.float * PrimFloat.float }.

Definition make_zones (center width : PrimFloat.float) : zones :=
  {| conservative :=
       (PrimFloat.add center (PrimFloat.mul 0.3%float width),
        PrimFloat.add center (PrimFloat.mul 0.8%float width));
     neutral :=
       (PrimFloat.sub center (PrimFloat.mul 0.2%float width),
        PrimFloat.add center (PrimFloat.mul 0.2%float width));
     aggressive :=
       (PrimFloat.sub center (PrimFloat.mul 0.8%float width),
        PrimFloat.sub center (PrimFloat.mul 0.3%float width)) |}.

(** The smallest positive binary64 number, 2^-1074 (about 5e-324). *)
Definition tiny : PrimFloat.float := 0x1p-1074%float.

Definition zero : PrimFloat.float := 0%float.

End Binary64.

(** ** Readings of the specification, to compare the code with *)

(** The ATR as the specification words it: the simple average of the true
    ranges of the trailing [period] bars, or of all bars when there are
    fewer. *)
Definition spec_best_effort_atr (period : nat) (tr : list float) : float :=
  let win := tail period tr in
  fdiv (fold_left fadd win (Some 0%Q)) (Some (Qnat (length win))).

(** The percentile rank as the specification words it: the fraction of the
    window that is at most the last value. *)
Definition spec_fraction_le (window : list Q) (x : Q) : Q :=
  (Qnat (length (filter (fun y => Qle_bool y x) window)) / Qnat (length window))%Q.

(** ** Predicates used in the statements *)

Definition nonneg (x : float) : Prop :=
  match x with
  | Some q => (0 <= q)%Q
  | None => True
  end.

(** A string of ASCII characters only: on such a string the functions of
    [PyStr] are those of Python, character for character. *)
Definition is_ascii (s : str) : bool :=
  forallb (fun c => nat_of_ascii c <? 128) s.

(** A string that does not start with whitespace. *)
Definition starts_clean (s : str) : Prop :=
  match s with
  | [] => True
  | c :: _ => isspace c = false
  end.

(** What the smoothing loop keeps true on non-negative input. *)
Definition ewm_inv (st : ewm_state) : Prop :=
  nonneg (weighted st) /\ (0 <= old_wt st)%Q.

(** A series in which every close is above all the closes before it. *)
Definition strictly_increasing (closes : list Q) : Prop :=
  StronglySorted Qlt closes.

(** The changes between consecutive closes that follow a close [prev]. *)
Fixpoint steps (prev : float) (s : list float) : list float :=
  match s with
  | [] => []
  | x :: t => fsub x prev :: steps x t
  end.

(** A float that is a number with the property [P]. *)
Definition number_with (P : Q -> Prop) (x : float) : Prop :=
  exists q, x = Some q /\ P q.

(** A float that is NaN or zero. *)
Definition zero_or_nan (x : float) : Prop :=
  match x with
  | Some q => (q == 0)%Q
  | None => True
  end.

(** A series in which no close is below the close before it. *)
Definition never_falls (closes : list Q) : Prop := Sorted Qle closes.

(** A series in which every close is below all the closes before it. *)
Definition strictly_decreasing (closes : list Q) : Prop :=
  StronglySorted (fun a b => (b < a)%Q) closes.

(** Tables used as concrete inputs below. *)
Definition all_nan_table : DataFrame :=
  [ {| High := Some 11%Q; Low := Some 9%Q; Close := NaN |} ].

Definition one_bar_table : DataFrame :=
  [ {| High := Some 11%Q; Low := Some 9%Q; Close := Some 10%Q |} ].

Definition rising_closes : list float := [Some 1%Q; Some 2%Q; Some 3%Q].

Definition mixed_closes : list float := [Some 10%Q; Some 11%Q; Some 10%Q; Some 12%Q].

Definition tied_closes : list Q := [1%Q; 1%Q].

Definition climbing_closes : list Q := [1%Q; 2%Q; 3%Q].

Definition flat_then_up_closes : list Q := [5%Q; 5%Q; 7%Q].

Definition sliding_closes : list Q := [9%Q; 8%Q; 6%Q; 5%Q].

Definition fortnight_closes : list Q :=
  [20%Q; 21%Q; 19%Q; 22%Q; 23%Q; 21%Q; 20%Q; 24%Q; 25%Q; 23%Q; 26%Q; 27%Q; 25%Q; 28%Q].

(** The table whose closes are [qs]; every bar ranges one unit around its
    close. *)
Definition table_of_closes (qs : list Q) : DataFrame :=
  map (fun q => {| High := Some (q + 1)%Q; Low := Some (q - 1)%Q; Close := Some q |}) qs.

(** * Properties *)

(** ** Strings *)

Section StringFacts.

Lemma startswith_spec (p s : str) :
  startswith s p = true <-> exists t, s = p ++ t.
Proof.
  revert s; induction p as [|x p IH]; intros s; simpl.
  - split; [intros _; now exists s | reflexivity].
  - destruct s as [|c s].
    + split; [discriminate | intros [t Ht]; discriminate].
    + rewrite andb_true_iff, Ascii.eqb_eq, IH. split.
      * intros [-> [t ->]]. now exists t.
      * intros [t Ht]. injection Ht as -> ->. split; [reflexivity | now exists t].
Qed.

Lemma endswith_spec (s suf : str) :
  endswith s suf = true <-> exists p, s = p ++ suf.
Proof.
  unfold endswith. rewrite startswith_spec. split.
  - intros [t Ht]. exists (rev t).
    rewrite <- (rev_involutive s), Ht, rev_app_distr, rev_involutive. reflexivity.
  - intros [p ->]. exists (rev p). apply rev_app_distr.
Qed.

Lemma lstrip_app_nonspace (p : str) (c : ascii) (t : str) :
  isspace c = false -> lstrip (p ++ c :: t) = lstrip p ++ c :: t.
Proof.
  intros Hc. induction p as [|x p IH]; simpl.
  - now rewrite Hc.
  - destruct (isspace x); [exact IH | reflexivity].
Qed.

Lemma strip_keeps_hk (p : str) :
  strip (p ++ lit ".HK") = lstrip p ++ lit ".HK".
Proof.
  unfold strip, rstrip. change (lit ".HK") with ("."%char :: lit "HK").
  rewrite lstrip_app_nonspace by reflexivity.
  change ("."%char :: lit "HK") with (lit ".HK").
  rewrite rev_app_distr. simpl.
  rewrite rev_involutive, <- !app_assoc. reflexivity.
Qed.

Lemma contains_app (c : ascii) (a b : str) :
  contains c (a ++ b) = contains c a || contains c b.
Proof. apply existsb_app. Qed.

Lemma isspace_not_dot (c : ascii) : isspace c = true -> c <> "."%char.
Proof. intros H ->. discriminate H. Qed.

Lemma count_dots_lstrip (p : str) :
  count_occ ascii_dec (lstrip p) "."%char = count_occ ascii_dec p "."%char.
Proof.
  induction p as [|x p IH]; [reflexivity|].
  cbn [lstrip]. destruct (isspace x) eqn:Hx; [|reflexivity].
  rewrite IH. apply isspace_not_dot in Hx.
  now rewrite (count_occ_cons_neq ascii_dec p Hx).
Qed.

Lemma upper_char_dot (c : ascii) : upper_char c = "."%char <-> c = "."%char.
Proof.
  split; [|now intros ->].
  destruct c as [[] [] [] [] [] [] [] []]; intros H;
    first [reflexivity | discriminate H].
Qed.

Lemma count_dots_upper (s : str) :
  count_occ ascii_dec (upper s) "."%char = count_occ ascii_dec s "."%char.
Proof.
  induction s as [|c s IH]; [reflexivity|].
  cbn [upper map]. fold (upper s).
  destruct (ascii_dec c "."%char) as [->|Hc].
  - change (upper_char ".") with "."%char.
    rewrite !count_occ_cons_eq by reflexivity. now rewrite IH.
  - assert (Hu : upper_char c <> "."%char) by (now rewrite upper_char_dot).
    rewrite !count_occ_cons_neq by assumption. exact IH.
Qed.

Lemma count_occ_contains (c : ascii) (s : str) :
  0 < count_occ ascii_dec s c -> contains c s = true.
Proof.
  induction s as [|x s IH]; simpl; [lia|].
  destruct (ascii_dec x c) as [->|Hn].
  - intros _. now rewrite Ascii.eqb_refl.
  - intros H. rewrite (IH H). apply orb_true_r.
Qed.

Lemma contains_first (c : ascii) (s : str) :
  contains c s = true ->
  exists a t, s = a ++ c :: t /\ contains c a = false.
Proof.
  induction s as [|x s IH]; simpl; [discriminate|].
  destruct (Ascii.eqb c x) eqn:E.
  - intros _. apply Ascii.eqb_eq in E. subst x. now exists [], s.
  - simpl. intros H. destruct (IH H) as (a & t & -> & Ha).
    exists (x :: a), t. split; [reflexivity|]. simpl. now rewrite E.
Qed.

Lemma split_first (sep : ascii) (a t : str) :
  contains sep a = false -> split sep (a ++ sep :: t) = a :: split sep t.
Proof.
  induction a as [|x a IH]; simpl.
  - intros _. now rewrite Ascii.eqb_refl.
  - intros H. apply orb_false_iff in H as [Hx Ha].
    rewrite Ascii.eqb_sym, Hx, (IH Ha). reflexivity.
Qed.

End StringFacts.

(** The examples of the specification. *)
Example format_ticker_hk : format_ticker (lit "700.HK") = Ok (lit "00700.HK").
Proof. reflexivity. Qed.

Example format_ticker_brk : format_ticker (lit "  brk.b ") = Ok (lit "BRK-B").
Proof. reflexivity. Qed.

Example format_ticker_sh : format_ticker (lit "600519") = Ok (lit "600519.SS").
Proof. reflexivity. Qed.

Example format_ticker_sz : format_ticker (lit "000001") = Ok (lit "000001.SZ").
Proof. reflexivity. Qed.

Example format_ticker_empty : format_ticker (lit "") = Ok (lit "AAPL").
Proof. reflexivity. Qed.

Example format_ticker_abhk : format_ticker (lit "A.B.HK") = Ok (lit "0000A.B").
Proof. reflexivity. Qed.

Example format_ticker_ws : format_ticker (lit "  ") = Ok (lit "").
Proof. reflexivity. Qed.

Lemma split_nonempty (sep : ascii) (s : str) : split sep s <> [].
Proof.
  induction s as [|c s IH]; simpl; [discriminate|].
  destruct (Ascii.eqb c sep); [discriminate|].
  destruct (split sep s); discriminate.
Qed.

(** No input is rejected: the two indexings of the [.HK] branch are always
    in range. *)
Lemma format_ticker_total (s : str) : exists t, format_ticker s = Ok t.
Proof.
  destruct s as [|c0 s0]; [now eexists|].
  unfold format_ticker. cbv beta iota zeta.
  set (u := upper (strip (c0 :: s0))).
  destruct (endswith u (lit ".HK")) eqn:Hend.
  - apply endswith_spec in Hend as [v Hv].
    change (lit ".HK") with ("."%char :: lit "HK") in Hv.
    assert (Hc : contains "." u = true).
    { rewrite Hv, contains_app. simpl. apply orb_true_r. }
    destruct (contains_first _ _ Hc) as (a & t & -> & Ha).
    rewrite (split_first _ _ _ Ha).
    destruct (split "." t) as [|b rest] eqn:Hsp; [now apply split_nonempty in Hsp|].
    now eexists.
  - destruct (contains "." u && negb (endswith_any u [lit ".SS"; lit ".SZ"]));
      [now eexists|].
    destruct (isdigit u && (length u =? 6)); [|now eexists].
    destruct (startswith_any u [lit "6"; lit "9"]); now eexists.
Qed.

Lemma lstrip_blank (s : str) : forallb isspace s = true -> lstrip s = [].
Proof.
  induction s as [|c s IH]; simpl; [reflexivity|].
  intros H. apply andb_true_iff in H as [Hc Hs]. now rewrite Hc, IH.
Qed.

(** Every non-empty blank input is normalised to the empty symbol. *)
Lemma format_ticker_blank (s : str) :
  s <> [] -> forallb isspace s = true -> format_ticker s = Ok [].
Proof.
  intros Hne Hblank. destruct s as [|c0 s0]; [congruence|].
  unfold format_ticker. cbv beta iota zeta.
  unfold strip. rewrite (lstrip_blank _ Hblank). reflexivity.
Qed.

(** C3: a whitespace-only input passes the emptiness test of line 18, is
    stripped to the empty string by line 19 and is returned as the empty
    symbol, where the empty input gets ["AAPL"]. *)
Theorem format_ticker_whitespace_only :
  format_ticker (lit "   ") = Ok (lit "") /\
  format_ticker (lit "") = Ok (lit "AAPL").
Proof. split; reflexivity. Qed.

(** ** The [.HK] branch on strings of code points *)

Section CodePointFacts.

Import Unicode.

Variable T : tables.

Lemma cp_startswith_spec (p s : ustr) :
  startswith s p = true <-> exists t, s = p ++ t.
Proof.
  revert s. induction p as [|x p IH]; intros s; simpl.
  - split; [intros _; now exists s | reflexivity].
  - destruct s as [|c s].
    + split; [discriminate | intros [t Ht]; discriminate].
    + rewrite andb_true_iff, N.eqb_eq, IH. split.
      * intros [-> [t ->]]. now exists t.
      * intros [t Ht]. injection Ht as -> ->. split; [reflexivity | now exists t].
Qed.

Lemma cp_endswith_spec (s suf : ustr) :
  endswith s suf = true <-> exists v, s = v ++ suf.
Proof.
  unfold endswith. rewrite cp_startswith_spec. split.
  - intros [t Ht]. exists (rev t).
    rewrite <- (rev_involutive s), Ht, rev_app_distr, rev_involutive.
    reflexivity.
  - intros [v ->]. exists (rev v). apply rev_app_distr.
Qed.

Lemma cp_lstrip_app_nonspace (p t : ustr) (c : N) :
  isspace T c = false -> lstrip T (p ++ c :: t) = lstrip T p ++ c :: t.
Proof.
  intros Hc. induction p as [|x p IH]; simpl.
  - now rewrite Hc.
  - destruct (isspace T x); [exact IH | reflexivity].
Qed.

Lemma cp_contains_app (c : N) (a b : ustr) :
  contains c (a ++ b) = contains c a || contains c b.
Proof. apply existsb_app. Qed.

Lemma cp_count_occ_contains (c : N) (s : ustr) :
  0 < count_occ N.eq_dec s c -> contains c s = true.
Proof.
  induction s as [|x s IH]; simpl; [lia|].
  destruct (N.eq_dec x c) as [->|Hn].
  - intros _. now rewrite N.eqb_refl.
  - intros H. rewrite (IH H). apply orb_true_r.
Qed.

Lemma cp_contains_first (c : N) (s : ustr) :
  contains c s = true ->
  exists a t, s = a ++ c :: t /\ contains c a = false.
Proof.
  induction s as [|x s IH]; simpl; [discriminate|].
  destruct (N.eqb c x) eqn:E.
  - intros _. apply N.eqb_eq in E. subst x. now exists [], s.
  - simpl. intros H. destruct (IH H) as (a & t & -> & Ha).
    exists (x :: a), t. split; [reflexivity|]. simpl. now rewrite E.
Qed.

Lemma cp_split_first (sep : N) (a t : ustr) :
  contains sep a = false -> split sep (a ++ sep :: t) = a :: split sep t.
Proof.
  induction a as [|x a IH]; simpl.
  - intros _. now rewrite N.eqb_refl.
  - intros H. apply orb_false_iff in H as [Hx Ha].
    rewrite N.eqb_sym, Hx, (IH Ha). reflexivity.
Qed.

Lemma cp_upper_app (a b : ustr) : upper T (a ++ b) = upper T a ++ upper T b.
Proof. apply flat_map_app. Qed.

(** The [.HK] branch on the stripped, upper-cased input: with more than one
    dot it is cut at its first two dots and the result keeps the first two
    segments only.  Nothing is asked of the tables here. *)
Lemma cp_format_ticker_hk_cut (raw : ustr) :
  raw <> [] ->
  endswith (upper T (strip T raw)) (ulit ".HK") = true ->
  1 < count_occ N.eq_dec (upper T (strip T raw)) (cp ".") ->
  exists seg0 seg1 rest : ustr,
    upper T (strip T raw) = seg0 ++ ulit "." ++ seg1 ++ ulit "." ++ rest /\
    contains (cp ".") seg0 = false /\
    contains (cp ".") seg1 = false /\
    endswith rest (ulit "HK") = true /\
    format_ticker T raw = Ok (zfill 5 seg0 ++ ulit "." ++ seg1).
Proof.
  intros Hne Hend Hdots.
  destruct (proj1 (cp_endswith_spec _ _) Hend) as [v Hv].
  rewrite Hv, count_occ_app in Hdots.
  change (count_occ N.eq_dec (ulit ".HK") (cp ".")) with 1 in Hdots.
  assert (Hcv : contains (cp ".") v = true) by (apply cp_count_occ_contains; lia).
  destruct (cp_contains_first _ _ Hcv) as (seg0 & u & -> & Hseg0).
  assert (Hcut : exists seg1 rest,
             u ++ ulit ".HK" = seg1 ++ cp "." :: rest /\
             contains (cp ".") seg1 = false /\ endswith rest (ulit "HK") = true).
  { destruct (contains (cp ".") u) eqn:Hcu.
    - destruct (cp_contains_first _ _ Hcu) as (seg1 & t & -> & Hseg1).
      exists seg1, (t ++ ulit ".HK"). repeat split.
      + now rewrite <- app_assoc.
      + exact Hseg1.
      + apply cp_endswith_spec. exists (t ++ ulit "."). now rewrite <- app_assoc.
    - exists u, (ulit "HK"). repeat split; assumption || reflexivity. }
  destruct Hcut as (seg1 & rest & Hcut & Hseg1 & Hrest).
  assert (Hs : upper T (strip T raw) = seg0 ++ cp "." :: seg1 ++ cp "." :: rest).
  { rewrite Hv, <- app_assoc, <- app_comm_cons, Hcut. reflexivity. }
  exists seg0, seg1, rest. repeat split; try assumption.
  destruct raw as [|c0 s0]; [congruence|].
  unfold format_ticker. cbv beta iota zeta.
  rewrite Hend, Hs.
  rewrite (cp_split_first _ _ _ Hseg0), (cp_split_first _ _ _ Hseg1).
  reflexivity.
Qed.

Hypothesis HT : tables_ok T.

Lemma cp_strip_keeps_hk (p : ustr) :
  strip T (p ++ ulit ".HK") = lstrip T p ++ ulit ".HK".
Proof.
  unfold strip, rstrip. change (ulit ".HK") with (cp "." :: ulit "HK").
  rewrite cp_lstrip_app_nonspace by apply (dot_not_space T HT).
  change (cp "." :: ulit "HK") with (ulit ".HK").
  rewrite rev_app_distr.
  change (rev (ulit ".HK")) with (cp "K" :: rev (ulit ".H")).
  rewrite <- app_comm_cons. cbn [lstrip]. rewrite (K_not_space T HT).
  rewrite app_comm_cons.
  change (cp "K" :: rev (ulit ".H")) with (rev (ulit ".HK")).
  now rewrite rev_app_distr, !rev_involutive.
Qed.

Lemma cp_upper_hk : upper T (ulit ".HK") = ulit ".HK".
Proof.
  change (ulit ".HK") with [cp "."; cp "H"; cp "K"].
  unfold upper. cbn [flat_map].
  now rewrite (upper_dot T HT), (upper_H T HT), (upper_K T HT).
Qed.

Lemma cp_count_dots_lstrip (p : ustr) :
  count_occ N.eq_dec (lstrip T p) (cp ".") = count_occ N.eq_dec p (cp ".").
Proof.
  induction p as [|x p IH]; [reflexivity|].
  cbn [lstrip]. destruct (isspace T x) eqn:Hx; [|reflexivity].
  rewrite IH. symmetry. apply count_occ_cons_neq.
  intros ->. rewrite (dot_not_space T HT) in Hx. discriminate.
Qed.

Lemma cp_count_dots_upper (s : ustr) :
  count_occ N.eq_dec (upper T s) (cp ".") = count_occ N.eq_dec s (cp ".").
Proof.
  induction s as [|c s IH]; [reflexivity|].
  unfold upper. cbn [flat_map]. fold (upper T s).
  rewrite count_occ_app, IH.
  destruct (N.eq_dec c (cp ".")) as [->|Hc].
  - rewrite (upper_dot T HT), (count_occ_cons_eq N.eq_dec s eq_refl).
    reflexivity.
  - rewrite (count_occ_cons_neq N.eq_dec s Hc).
    assert (Hn : ~ In (cp ".") (upper_of T c)).
    { intros Hin. apply Hc. now apply (dot_only_from_dot T HT). }
    apply (count_occ_not_In N.eq_dec) in Hn. now rewrite Hn.
Qed.

(** An input that ends in [.HK] takes the [.HK] branch, and stripping and
    upper-casing it neither add nor remove a dot. *)
Lemma cp_hk_input (raw : ustr) :
  endswith raw (ulit ".HK") = true ->
  raw <> [] /\
  endswith (upper T (strip T raw)) (ulit ".HK") = true /\
  count_occ N.eq_dec (upper T (strip T raw)) (cp ".") =
    count_occ N.eq_dec raw (cp ".").
Proof.
  intros Hend. apply cp_endswith_spec in Hend as [p ->].
  assert (Hs : upper T (strip T (p ++ ulit ".HK")) =
               upper T (lstrip T p) ++ ulit ".HK").
  { now rewrite cp_strip_keeps_hk, cp_upper_app, cp_upper_hk. }
  split; [destruct p; discriminate|]. split.
  - apply cp_endswith_spec. now exists (upper T (lstrip T p)).
  - rewrite Hs, !count_occ_app, cp_count_dots_upper, cp_count_dots_lstrip.
    reflexivity.
Qed.

End CodePointFacts.

Lemma sample_tables_ok : Unicode.tables_ok Unicode.sample_tables.
Proof.
  split; try reflexivity.
  intros c. unfold Unicode.sample_tables, Unicode.upper_of.
  destruct ((97 <=? c) && (c <=? 122))%N eqn:E1.
  - apply andb_true_iff in E1 as [H1 H2].
    apply N.leb_le in H1, H2.
    intros [H|[]]. change (Unicode.cp ".") with 46%N in H. lia.
  - destruct (c =? 223)%N eqn:E2.
    + intros [H|[H|[]]]; discriminate H.
    + intros [H|[]]. now symmetry.
Qed.



(** The full-width seven counts as one character: four zeros are put
    before it. *)
Example format_ticker_fullwidth :
  Unicode.format_ticker Unicode.sample_tables Unicode.fullwidth_input =
    Ok ([48; 48; 48; 48; 65303] ++ Unicode.ulit ".B")%N.
Proof. reflexivity. Qed.

(** ** Indexing from the back and lengths *)

Section Indexing.

Context {A : Type}.

Lemma iloc_back_nil (k : nat) :
  0 < k -> iloc_back (@nil A) k = Raise "IndexError".
Proof.
  intros Hk. unfold iloc_back. simpl.
  destruct k; [lia | reflexivity].
Qed.

Lemma iloc_back_ok (l : list A) (k : nat) :
  0 < k <= length l -> exists x, iloc_back l k = Ok x /\ In x l.
Proof.
  intros Hk. unfold iloc_back, getitem.
  destruct (Nat.ltb_spec (length l) k) as [Hlt|_]; [lia|].
  destruct (nth_error l (length l - k)) as [x|] eqn:E.
  - exists x. split; [reflexivity | eapply nth_error_In; eassumption].
  - apply nth_error_None in E. lia.
Qed.

Lemma iloc_back_snoc (l : list A) (x : A) : iloc_back (l ++ [x]) 1 = Ok x.
Proof.
  unfold iloc_back, getitem. rewrite length_app. simpl.
  destruct (Nat.ltb_spec (length l + 1) 1) as [Hlt|_]; [lia|].
  replace (length l + 1 - 1) with (length l) by lia.
  rewrite nth_error_app2 by lia. rewrite Nat.sub_diag. reflexivity.
Qed.

Lemma tail_length (n : nat) (l : list A) :
  length (tail n l) = Nat.min n (length l).
Proof. unfold tail. rewrite length_skipn. lia. Qed.

Lemma tail_snoc (n : nat) (l : list A) (x : A) :
  0 < n -> exists l', tail n (l ++ [x]) = l' ++ [x] /\ l' = tail (n - 1) l.
Proof.
  intros Hn. unfold tail. rewrite length_app. simpl.
  exists (skipn (length l - (n - 1)) l). split; [|reflexivity].
  replace (length l + 1 - n) with (length l - (n - 1)) by lia.
  rewrite skipn_app.
  replace (length l - (n - 1) - length l) with 0 by lia. reflexivity.
Qed.

End Indexing.

Section Lengths.

Lemma zip_with_length {A B C : Type} (f : A -> B -> C) (a : list A) (b : list B) :
  length (zip_with f a b) = Nat.min (length a) (length b).
Proof. unfold zip_with. now rewrite length_map, length_combine. Qed.

Lemma shift_length (s : list float) : length (shift s) = length s.
Proof.
  destruct s as [|x s]; [reflexivity|].
  unfold shift. cbn [length]. rewrite removelast_firstn_len, length_firstn.
  cbn [length]. lia.
Qed.

Lemma diff_length (s : list float) : length (diff s) = length s.
Proof. unfold diff. rewrite zip_with_length, shift_length. lia. Qed.

Lemma ewm_run_length (alpha : Q) (vals : list float) (st : ewm_state) :
  length (ewm_run alpha st vals) = length vals.
Proof.
  revert st. induction vals as [|v vals IH]; intros st; simpl; [reflexivity|].
  now rewrite IH.
Qed.

Lemma ewm_mean_length (alpha : Q) (vals : list float) :
  length (ewm_mean alpha vals) = length vals.
Proof.
  destruct vals as [|v vals]; simpl; [reflexivity|].
  now rewrite ewm_run_length.
Qed.

Lemma rsi_wilder_length (close : list float) (period : positive) :
  length (rsi_wilder close period) = length close.
Proof.
  unfold rsi_wilder, avg_gain, avg_loss, gain, loss, replace0, clip_lower0, clip_upper0.
  rewrite length_map, zip_with_length.
  rewrite length_map, !ewm_mean_length, !length_map, diff_length. lia.
Qed.

Lemma rank_pct_length (s : list float) : length (rank_pct s) = length s.
Proof. unfold rank_pct. apply length_map. Qed.

Lemma rolling_mean_length (w : nat) (s : list float) :
  length (rolling_mean w s) = length s.
Proof. unfold rolling_mean. now rewrite length_map, length_seq. Qed.

Lemma col_length (f : Bar -> float) (df : DataFrame) :
  length (col f df) = length df.
Proof. unfold col. rewrite length_combine, length_seq, length_map. lia. Qed.

Lemma true_range_length (df : DataFrame) (close : Series) :
  length (true_range df close) = length df.
Proof.
  unfold true_range, values, sub_aligned.
  rewrite !zip_with_length, !length_map, !col_length. lia.
Qed.

Lemma dropna_col_length (f : Bar -> float) (df : DataFrame) :
  length (dropna (col f df)) <= length df.
Proof.
  unfold dropna. rewrite <- (col_length f df). apply filter_length_le.
Qed.

End Lengths.

(** A short window has no rolling mean. *)
Lemma rolling_mean_short (w : nat) (s : list float) (x : float) :
  length s < w -> In x (rolling_mean w s) -> x = NaN.
Proof.
  intros Hlen Hin. unfold rolling_mean in Hin.
  apply in_map_iff in Hin as (i & <- & Hi). apply in_seq in Hi.
  unfold window_mean.
  destruct (Nat.eqb_spec (length (skipn (i + 1 - w) (firstn (i + 1) s))) w) as [E|_];
    [|reflexivity].
  rewrite length_skipn, length_firstn in E. lia.
Qed.

(** ** The analysis returns a result exactly when a close is left *)

(** After [dropna] the close series holds numbers only. *)
Lemma dropna_values (s : Series) :
  exists qs : list Q, values (dropna s) = map Some qs.
Proof.
  induction s as [|[i [q|]] s [qs IH]]; simpl.
  - now exists [].
  - exists (q :: qs). simpl. now rewrite <- IH.
  - now exists qs.
Qed.

Lemma calculate_logic_total (df : DataFrame) (info : Info) :
  dropna (col Close df) <> [] ->
  exists last rsi_last rsi_prev pr atr,
    iloc_back (values (dropna (col Close df))) 1 = Ok last /\
    iloc_back (rsi_wilder (values (dropna (col Close df))) 14) 1 = Ok rsi_last /\
    percentile_rank (values (dropna (col Close df))) = Ok pr /\
    average_true_range (true_range df (dropna (col Close df))) = Ok atr /\
    In atr (rolling_mean 14 (true_range df (dropna (col Close df)))) /\
    calculate_logic df info =
      Ok {| Res.last := last;
            Res.sig := signal (flt pr (Some 0.30%Q)) (flt rsi_last (Some 35%Q))
                              (fgt rsi_last rsi_prev);
            Res.zones := make_zones (zone_center last) (zone_width atr last);
            Res.adds := make_adds (make_zones (zone_center last) (zone_width atr last));
            Res.metrics := {| Res.rsi := rsi_last; Res.pr_3y := pr; Res.atr := atr |};
            Res.cond := (flt pr (Some 0.30%Q), flt rsi_last (Some 35%Q),
                         fgt rsi_last rsi_prev) |}.
Proof.
  intros Hne. unfold calculate_logic.
  set (close := dropna (col Close df)) in *.
  assert (Hlen : 0 < length (values close)).
  { unfold values. rewrite length_map. destruct close; [congruence | simpl; lia]. }
  assert (Hdf : 0 < length df).
  { pose proof (dropna_col_length Close df) as H. fold close in H.
    unfold values in Hlen. rewrite length_map in Hlen. lia. }
  destruct (iloc_back_ok (values close) 1) as (last & Hlast & _); [lia|].
  destruct (iloc_back_ok (rsi_wilder (values close) 14) 1)
    as (rsi_last & Hrsi & _); [rewrite rsi_wilder_length; lia|].
  assert (Hprev : exists rsi_prev,
             (if 2 <? length (rsi_wilder (values close) 14)
              then iloc_back (rsi_wilder (values close) 14) 2
              else Ok rsi_last) = Ok rsi_prev).
  { destruct (Nat.ltb_spec 2 (length (rsi_wilder (values close) 14))) as [H|H].
    - destruct (iloc_back_ok (rsi_wilder (values close) 14) 2)
        as (x & Hx & _); [lia | now exists x].
    - now exists rsi_last. }
  destruct Hprev as (rsi_prev & Hprev).
  destruct (iloc_back_ok (rank_pct (tail 756 (values close))) 1)
    as (pr & Hpr & _); [rewrite rank_pct_length, tail_length; lia|].
  destruct (iloc_back_ok (rolling_mean 14 (true_range df close)) 1)
    as (atr & Hatr & Hin); [rewrite rolling_mean_length, true_range_length; lia|].
  exists last, rsi_last, rsi_prev, pr, atr.
  unfold percentile_rank, average_true_range.
  rewrite Hlast, Hrsi, Hpr, Hatr. cbn [bind]. rewrite Hprev. cbn [bind].
  repeat split; assumption || reflexivity.
Qed.

Lemma calculate_logic_no_close (df : DataFrame) (info : Info) :
  dropna (col Close df) = [] -> calculate_logic df info = Raise "IndexError".
Proof. intros H. unfold calculate_logic. rewrite H. reflexivity. Qed.

(** ** The signal classifier *)

(** C1: the signal is a total function of the three conditions; each of the
    eight combinations gets the label, marker and rationale of the first
    matching row -- Add for A, B and C, Build for A and B without C, Probe
    for exactly one of A and B, Watch for neither -- and the four labels are
    distinct. *)
Theorem signal_decision_table (A B C : bool) :
  signal A B C =
    match A, B, C with
    | true, true, true => ("加仓", "🔵", "确认反转，极高性价比")%string
    | true, true, false => ("建仓", "🟢", "进入价值区，等待拐头")%string
    | true, false, _ | false, true, _ => ("试探", "🟡", "满足单一底部特征")%string
    | false, false, _ => ("观察", "⚪", "暂无明显底部信号")%string
    end
  /\ In (fst (fst (signal A B C))) ["加仓"; "建仓"; "试探"; "观察"]%string
  /\ NoDup ["加仓"; "建仓"; "试探"; "观察"]%string.
Proof.
  split; [destruct A, B, C; reflexivity|]. split.
  - destruct A, B, C; simpl; auto 6.
  - repeat constructor; simpl; intros H;
      repeat (destruct H as [H|H]; [discriminate H|]); exact H.
Qed.

(** ** Missing data *)

(** C2, as stated, fails: on a table whose closes are all missing the close
    series is empty after [dropna] and the analysis raises [IndexError]; no
    [InsufficientDataError] exists. *)
Lemma calculate_logic_raises_index_error :
  dropna (col Close all_nan_table) = [] /\
  calculate_logic all_nan_table [] = Raise "IndexError" /\
  calculate_logic all_nan_table [] <> Raise "InsufficientDataError".
Proof.
  split; [reflexivity|]. split; [reflexivity|]. discriminate.
Qed.

(** C2, amended: the missing closes are dropped first, and whenever no
    close is left the analysis fails with the [IndexError] of
    [close.iloc[-1]]; the UI branch shows its error box for an empty table
    without calling the analysis, and lets that [IndexError] through for a
    table that has rows. *)
Theorem calculate_logic_empty_close (ticker : str) (df : DataFrame) (info : Info) :
  dropna (col Close df) = [] ->
  calculate_logic df info = Raise "IndexError" /\
  analysis_branch ticker df info =
    match df with
    | [] => Ok ErrorBox
    | _ :: _ => Raise "IndexError"
    end.
Proof.
  intros H. pose proof (calculate_logic_no_close df info H) as E.
  split; [exact E|].
  destruct df as [|b df]; [reflexivity|].
  unfold analysis_branch. rewrite E. reflexivity.
Qed.

Lemma calculate_logic_empty_close_witness :
  dropna (col Close all_nan_table) = [] /\
  calculate_logic all_nan_table [] = Raise "IndexError" /\
  analysis_branch (lit "AAPL") all_nan_table [] = Raise "IndexError".
Proof.
  split; [reflexivity|].
  apply (calculate_logic_empty_close (lit "AAPL") all_nan_table []).
  reflexivity.
Defined.

(** ** Metadata *)

(** C9: the result of the analysis is the same for any two metadata
    dictionaries, and the UI branch run on a dictionary with every field
    absent ends the same way -- same numbers, same failure -- as on any
    other. *)
Theorem metadata_never_influences (ticker : str) (df : DataFrame) (info1 info2 : Info) :
  calculate_logic df info1 = calculate_logic df info2 /\
  match analysis_branch ticker df info1, analysis_branch ticker df [] with
  | Ok (Report r1 _ _ _), Ok (Report r2 _ _ _) => r1 = r2
  | Ok ErrorBox, Ok ErrorBox => True
  | Raise e1, Raise e2 => e1 = e2
  | _, _ => False
  end.
Proof.
  split; [reflexivity|].
  destruct df as [|b df]; [exact I|].
  unfold analysis_branch.
  change (calculate_logic (b :: df) info1) with (calculate_logic (b :: df) []).
  destruct (calculate_logic (b :: df) []) as [r|e]; reflexivity.
Qed.

(** ** Average true range *)

(** C7, as stated, fails: on a table of one bar the true range is 2 and its
    best-effort average would be 2, but the ATR of the result is NaN. *)
Lemma atr_one_bar_is_nan :
  exists r,
    calculate_logic one_bar_table [] = Ok r /\
    Res.atr (Res.metrics r) = NaN /\
    feq (spec_best_effort_atr 14
           (true_range one_bar_table (dropna (col Close one_bar_table))))
        (Some 2%Q) /\
    ~ feq (Res.atr (Res.metrics r))
          (spec_best_effort_atr 14
             (true_range one_bar_table (dropna (col Close one_bar_table)))).
Proof.
  eexists. split; [vm_compute; reflexivity|].
  split; [reflexivity|]. split; [vm_compute; reflexivity|].
  vm_compute. exact (fun H => H).
Qed.

(** C7, amended: with fewer than 14 bars the rolling mean has no full
    window and the ATR is NaN; the analysis still returns a result as soon
    as one close is valid, and in that result the width, the three bands
    and the add-on levels are NaN too. *)
Theorem atr_short_table_is_nan (df : DataFrame) (info : Info) :
  dropna (col Close df) <> [] ->
  length df < 14 ->
  exists r,
    calculate_logic df info = Ok r /\
    Res.atr (Res.metrics r) = NaN /\
    zone_width (Res.atr (Res.metrics r)) (Res.last r) = NaN /\
    Res.zones r =
      {| Res.conservative := (NaN, NaN);
         Res.neutral := (NaN, NaN);
         Res.aggressive := (NaN, NaN) |} /\
    Res.adds r = {| Res.first := NaN; Res.pullback := NaN |}.
Proof.
  intros Hne Hlen.
  destruct (calculate_logic_total df info Hne)
    as (last & rsi_last & rsi_prev & pr & atr & _ & _ & _ & _ & Hin & Hres).
  apply rolling_mean_short in Hin; [|rewrite true_range_length; exact Hlen].
  subst atr. eexists. split; [exact Hres|].
  cbn [Res.atr Res.metrics Res.last Res.zones Res.adds].
  assert (Hw : zone_width NaN last = NaN) by (destruct last; reflexivity).
  rewrite Hw. unfold make_zones, make_adds, zone_center.
  destruct last; repeat split; reflexivity.
Qed.

Lemma atr_short_table_is_nan_witness :
  dropna (col Close one_bar_table) <> [] /\
  length one_bar_table < 14 /\
  exists r,
    calculate_logic one_bar_table [] = Ok r /\
    Res.atr (Res.metrics r) = NaN /\
    zone_width (Res.atr (Res.metrics r)) (Res.last r) = NaN /\
    Res.zones r =
      {| Res.conservative := (NaN, NaN);
         Res.neutral := (NaN, NaN);
         Res.aggressive := (NaN, NaN) |} /\
    Res.adds r = {| Res.first := NaN; Res.pullback := NaN |}.
Proof.
  split; [discriminate|]. split; [simpl; lia|].
  apply (atr_short_table_is_nan one_bar_table []); [discriminate | simpl; lia].
Defined.

(** ** The zone calculator *)

Lemma Qlt_bool_iff (x y : Q) : Qlt_bool x y = true <-> (x < y)%Q.
Proof.
  unfold Qlt_bool. rewrite negb_true_iff. split.
  - intros H. apply Qnot_le_lt. intros Hle.
    apply Qle_bool_iff in Hle. congruence.
  - intros H. destruct (Qle_bool y x) eqn:E; [|reflexivity].
    apply Qle_bool_iff in E. apply Qle_not_lt in E. contradiction.
Qed.

Lemma Qlt_bool_false_iff (x y : Q) : Qlt_bool x y = false <-> (y <= x)%Q.
Proof.
  unfold Qlt_bool. rewrite negb_false_iff. apply Qle_bool_iff.
Qed.

(** ** The zone calculator in a rounded arithmetic *)

Section RoundedOrder.

Import Rounded.

Lemma xle_fin (x y : Q) : xle (XFin x) (XFin y) <-> (x <= y)%Q.
Proof. unfold xle. simpl. rewrite Qlt_bool_false_iff. tauto. Qed.

Lemma xle_refl (a : xfloat) : xisnan a = false -> xle a a.
Proof.
  intros Ha. repeat split; trivial.
  destruct a as [|[]|x]; simpl; trivial.
  apply Qlt_bool_false_iff, Qle_refl.
Qed.

Lemma xle_trans (a b c : xfloat) : xle a b -> xle b c -> xle a c.
Proof.
  intros (Ha & Hb & Hab) (_ & Hc & Hbc). repeat split; trivial.
  destruct a as [|[]|x], b as [|[]|y], c as [|[]|z]; simpl in *;
    try discriminate; try reflexivity.
  apply Qlt_bool_false_iff in Hab, Hbc. apply Qlt_bool_false_iff.
  now apply Qle_trans with y.
Qed.

Lemma xltb_asym (a b : xfloat) : xltb a b = true -> xltb b a = false.
Proof.
  destruct a as [|[]|x], b as [|[]|y]; simpl; try discriminate; trivial.
  rewrite Qlt_bool_iff, Qlt_bool_false_iff. apply Qlt_le_weak.
Qed.

Lemma xle_neg_inf (v : xfloat) : xisnan v = false -> xle (XInf true) v.
Proof. intros H. repeat split; trivial. now destruct v as [|[]|x]. Qed.

Lemma xle_pos_inf (v : xfloat) : xisnan v = false -> xle v (XInf false).
Proof. intros H. repeat split; trivial. now destruct v as [|[]|x]. Qed.

(** A value between two numbers is a number. *)
Lemma xle_between_fin (a b : Q) (v : xfloat) :
  xle (XFin a) v -> xle v (XFin b) ->
  exists k, v = XFin k /\ (a <= k)%Q /\ (k <= b)%Q.
Proof.
  intros Hav Hvb. destruct v as [|[]|k].
  - destruct Hvb as (H & _). discriminate H.
  - destruct Hav as (_ & _ & H). discriminate H.
  - destruct Hvb as (_ & _ & H). discriminate H.
  - exists k. split; [reflexivity|]. now rewrite <- !xle_fin.
Qed.

(** A value that is not below 0 is a number or the positive infinity. *)
Lemma nonneg_cases (w : xfloat) :
  xle (XFin 0) w -> w = XInf false \/ exists q, w = XFin q /\ (0 <= q)%Q.
Proof.
  intros H. destruct w as [|[]|q].
  - destruct H as (_ & H & _). discriminate H.
  - destruct H as (_ & _ & H). discriminate H.
  - now left.
  - right. exists q. split; [reflexivity|]. now apply xle_fin.
Qed.

Lemma xneg_antitone (a b : xfloat) : xle a b -> xle (xneg b) (xneg a).
Proof.
  intros (Ha & Hb & Hab).
  destruct a as [|[]|x], b as [|[]|y]; simpl in *;
    try discriminate; repeat split; trivial.
  apply Qlt_bool_false_iff in Hab. apply Qlt_bool_false_iff.
  now apply Qopp_le_compat.
Qed.

Lemma pos_flags (k : Q) :
  (0 < k)%Q -> Qeq_bool k 0 = false /\ Qlt_bool k 0 = false.
Proof.
  intros Hk. split.
  - destruct (Qeq_bool k 0) eqn:E; [|reflexivity].
    apply Qeq_bool_iff in E. rewrite E in Hk. now apply Qlt_irrefl in Hk.
  - apply Qlt_bool_false_iff. now apply Qlt_le_weak.
Qed.

Variable F : format.

Hypothesis HF : format_ok F.

Lemma rnd_not_nan (q : Q) : xisnan (rnd F q) = false.
Proof. exact (proj1 (rnd_mono F HF q q (Qle_refl q))). Qed.

Lemma rnd_ge (r q : Q) :
  representable F r -> (r <= q)%Q -> xle (XFin r) (rnd F q).
Proof.
  intros [_ Hr] Hq. apply xle_trans with (rnd F r); [exact Hr|].
  now apply (rnd_mono F HF).
Qed.

Lemma rnd_le (q r : Q) :
  representable F r -> (q <= r)%Q -> xle (rnd F q) (XFin r).
Proof.
  intros [Hr _] Hq. apply xle_trans with (rnd F r); [|exact Hr].
  now apply (rnd_mono F HF).
Qed.

(** A literal between two values of the format is read as a number between
    them. *)
Lemma literal_between (a b q : Q) :
  representable F a -> representable F b -> (a <= q)%Q -> (q <= b)%Q ->
  exists k, literal F q = XFin k /\ (a <= k)%Q /\ (k <= b)%Q.
Proof.
  intros Ha Hb Haq Hqb. apply xle_between_fin.
  - now apply rnd_ge.
  - now apply rnd_le.
Qed.

(** The three factors of lines 76-78 are read as positive numbers, in the
    order of the decimals. *)
Lemma band_factors :
  exists k2 k3 k8,
    literal F 0.2 = XFin k2 /\ literal F 0.3 = XFin k3 /\
    literal F 0.8 = XFin k8 /\
    (0 < k2)%Q /\ (k2 <= k3)%Q /\ (k3 <= k8)%Q.
Proof.
  destruct (literal_between (1 # 8) 1 0.2 (rnd_eighth F HF) (rnd_1 F HF))
    as (k2 & H2 & L2 & _); [lra | lra |].
  destruct (literal_between (1 # 8) 1 0.3 (rnd_eighth F HF) (rnd_1 F HF))
    as (k3 & H3 & _); [lra | lra |].
  destruct (literal_between (1 # 8) 1 0.8 (rnd_eighth F HF) (rnd_1 F HF))
    as (k8 & H8 & _); [lra | lra |].
  exists k2, k3, k8. repeat split; trivial.
  - lra.
  - apply xle_fin. rewrite <- H2, <- H3. apply (rnd_mono F HF). lra.
  - apply xle_fin. rewrite <- H3, <- H8. apply (rnd_mono F HF). lra.
Qed.

Lemma xmul_fin_mono (k1 k2 : Q) (w : xfloat) :
  (0 < k1)%Q -> (k1 <= k2)%Q -> xle (XFin 0) w ->
  xle (xmul F (XFin k1) w) (xmul F (XFin k2) w).
Proof.
  intros H1 H12 Hw.
  assert (H2 : (0 < k2)%Q) by lra.
  destruct (nonneg_cases w Hw) as [->|(q & -> & Hq)].
  - simpl. destruct (pos_flags k1 H1) as [-> ->].
    destruct (pos_flags k2 H2) as [-> ->]. now apply xle_refl.
  - simpl. apply (rnd_mono F HF). now apply Qmult_le_compat_r.
Qed.

Lemma xmul_fin_nonneg (k : Q) (w : xfloat) :
  (0 < k)%Q -> xle (XFin 0) w -> xle (XFin 0) (xmul F (XFin k) w).
Proof.
  intros Hk Hw.
  destruct (nonneg_cases w Hw) as [->|(q & -> & Hq)].
  - simpl. destruct (pos_flags k Hk) as [-> ->]. now apply xle_pos_inf.
  - simpl. apply rnd_ge; [exact (rnd_0 F HF)|].
    apply Qmult_le_0_compat; [lra | exact Hq].
Qed.

Lemma xadd_mono (c : Q) (a b : xfloat) :
  xle a b -> xle (xadd F (XFin c) a) (xadd F (XFin c) b).
Proof.
  intros (Ha & Hb & Hab).
  destruct a as [|[]|x], b as [|[]|y]; simpl in *; try discriminate.
  - now apply xle_refl.
  - now apply xle_neg_inf.
  - apply xle_neg_inf, rnd_not_nan.
  - now apply xle_refl.
  - apply xle_pos_inf, rnd_not_nan.
  - apply (rnd_mono F HF). apply Qlt_bool_false_iff in Hab. lra.
Qed.

(** Lines 75-79: around a centre that is a number and with a width that is
    not below 0, the six bounds of the bands come in order, from the low of
    the aggressive band to the high of the conservative band. *)
Lemma bounds_chain (c : Q) (w : xfloat) :
  xle (XFin 0) w ->
  let z := make_zones F (XFin c) w in
  xle (fst (aggressive z)) (snd (aggressive z)) /\
  xle (snd (aggressive z)) (fst (neutral z)) /\
  xle (fst (neutral z)) (snd (neutral z)) /\
  xle (snd (neutral z)) (fst (conservative z)) /\
  xle (fst (conservative z)) (snd (conservative z)).
Proof.
  intros Hw. destruct band_factors as (k2 & k3 & k8 & H2 & H3 & H8 & P2 & L23 & L38).
  assert (P3 : (0 < k3)%Q) by lra.
  cbv zeta. unfold make_zones, xsub. cbn [fst snd conservative neutral aggressive].
  rewrite H2, H3, H8.
  assert (M23 := xmul_fin_mono k2 k3 w P2 L23 Hw).
  assert (M38 := xmul_fin_mono k3 k8 w P3 L38 Hw).
  assert (N2 := xmul_fin_nonneg k2 w P2 Hw).
  split; [|split; [|split; [|split]]]; apply xadd_mono.
  - now apply xneg_antitone.
  - now apply xneg_antitone.
  - apply xle_trans with (XFin 0); [|exact N2].
    change (XFin 0) with (xneg (XFin 0)). now apply xneg_antitone.
  - exact M23.
  - exact M38.
Qed.

Lemma py_max_ge_l (a b : xfloat) :
  xisnan a = false -> xisnan b = false -> xle a (py_max a b).
Proof.
  intros Ha Hb. unfold py_max. destruct (xltb a b) eqn:E.
  - repeat split; trivial. now apply xltb_asym.
  - now apply xle_refl.
Qed.

Lemma py_max_ge_r (a b : xfloat) :
  xisnan a = false -> xisnan b = false -> xle b (py_max a b).
Proof.
  intros Ha Hb. unfold py_max. destruct (xltb a b) eqn:E.
  - now apply xle_refl.
  - repeat split; trivial.
Qed.

(** Line 73: the centre is a number between 0 and the last price. *)
Lemma zone_center_number (last : Q) :
  representable F last -> (0 < last)%Q ->
  exists c, zone_center F (XFin last) = XFin c /\ (0 <= c)%Q /\ (c <= last)%Q.
Proof.
  intros Hl Hpos.
  destruct (literal_between (1 # 8) 1 0.92 (rnd_eighth F HF) (rnd_1 F HF))
    as (k & Hk & L1 & L2); [lra | lra |].
  unfold zone_center. rewrite Hk. simpl. apply xle_between_fin.
  - apply rnd_ge; [exact (rnd_0 F HF)|].
    apply Qmult_le_0_compat; lra.
  - apply rnd_le; [exact Hl|].
    rewrite <- (Qmult_1_r last) at 2.
    rewrite !(Qmult_comm last). apply Qmult_le_compat_r; lra.
Qed.

(** Line 72: both products are numbers or the positive infinity, not below
    0, and the width is not below either. *)
Lemma zone_width_bounds (atr last : Q) :
  (0 < last)%Q -> (0 <= atr)%Q ->
  let a := xmul F (literal F 1.8) (XFin atr) in
  let b := xmul F (XFin last) (literal F 0.08) in
  let width := zone_width F (XFin atr) (XFin last) in
  xle (XFin 0) a /\ xle (XFin 0) b /\
  xle a width /\ xle b width /\ xle (XFin 0) width.
Proof.
  intros Hpos Hatr.
  destruct (literal_between 1 2 1.8 (rnd_1 F HF) (rnd_2 F HF))
    as (k18 & H18 & L18 & _); [lra | lra |].
  destruct (literal_between 0 (1 # 8) 0.08 (rnd_0 F HF) (rnd_eighth F HF))
    as (k08 & H08 & L08 & _); [lra | lra |].
  cbv zeta. unfold zone_width. rewrite H18, H08. simpl.
  assert (Ha : xle (XFin 0) (rnd F (k18 * atr))).
  { apply rnd_ge; [exact (rnd_0 F HF)|]. apply Qmult_le_0_compat; lra. }
  assert (Hb : xle (XFin 0) (rnd F (last * k08))).
  { apply rnd_ge; [exact (rnd_0 F HF)|]. apply Qmult_le_0_compat; lra. }
  assert (Hl := py_max_ge_l _ _ (rnd_not_nan (k18 * atr)) (rnd_not_nan (last * k08))).
  assert (Hr := py_max_ge_r _ _ (rnd_not_nan (k18 * atr)) (rnd_not_nan (last * k08))).
  repeat split; try (apply Ha || apply Hb || apply Hl || apply Hr).
  all: try apply rnd_not_nan.
  all: exact (proj2 (proj2 (xle_trans _ _ _ Ha Hl))).
Qed.

End RoundedOrder.

Section ExactZones.

Import Rounded.

Variable F : format.

Hypothesis Hex : forall q : Q, rnd F q = XFin q.

(** Where no operation rounds, the width is a number not below either
    product of line 72. *)
Lemma exact_width (atr last : Q) :
  exists w,
    zone_width F (XFin atr) (XFin last) = XFin w /\
    (1.8 * atr <= w)%Q /\ (last * 0.08 <= w)%Q.
Proof.
  unfold zone_width, literal. rewrite !Hex. cbn [xmul]. rewrite !Hex.
  unfold py_max. cbn [xltb]. destruct (Qlt_bool _ _) eqn:E.
  - apply Qlt_bool_iff in E. eexists. split; [reflexivity|]. lra.
  - apply Qlt_bool_false_iff in E. eexists. split; [reflexivity|]. lra.
Qed.

Lemma exact_lows (c w : Q) :
  let z := make_zones F (XFin c) (XFin w) in
  fst (aggressive z) = XFin (c + - (0.8 * w)) /\
  fst (neutral z) = XFin (c + - (0.2 * w)) /\
  fst (conservative z) = XFin (c + 0.3 * w).
Proof.
  cbv zeta. unfold make_zones, xsub, literal.
  cbn [fst aggressive neutral conservative].
  rewrite !Hex. cbn [xmul]. rewrite !Hex. cbn [xneg xadd]. rewrite !Hex.
  repeat split.
Qed.

End ExactZones.

Lemma exact_ok : Rounded.format_ok Rounded.exact.
Proof.
  split.
  - intros x y Hxy. now apply xle_fin.
  - split; apply xle_refl; reflexivity.
  - split; apply xle_refl; reflexivity.
  - split; apply xle_refl; reflexivity.
  - split; apply xle_refl; reflexivity.
Qed.

Lemma coarse_ok : Rounded.format_ok Rounded.coarse.
Proof.
  split; try (vm_compute; repeat split; reflexivity).
  intros x y Hxy. unfold Rounded.coarse, Rounded.rnd.
  destruct (Qlt_bool 1000 x) eqn:Ex.
  - apply Qlt_bool_iff in Ex.
    assert (Ey : Qlt_bool 1000 y = true) by (apply Qlt_bool_iff; lra).
    rewrite Ey. now apply xle_refl.
  - destruct (Qlt_bool x (-1000)) eqn:Ex'.
    + apply xle_neg_inf.
      destruct (Qlt_bool 1000 y); [reflexivity|].
      destruct (Qlt_bool y (-1000)); reflexivity.
    + apply Qlt_bool_false_iff in Ex, Ex'.
      destruct (Qlt_bool 1000 y) eqn:Ey; [now apply xle_pos_inf|].
      assert (Ey' : Qlt_bool y (-1000) = false) by (apply Qlt_bool_false_iff; lra).
      rewrite Ey'. apply xle_fin.
      assert (Hf : (Qfloor (x * 8) <= Qfloor (y * 8))%Z).
      { apply Qfloor_resp_le. lra. }
      unfold Qle. cbn [Qnum Qden]. lia.
Qed.




(** In the arithmetic of eighths the lows do meet: for the last price 1 and
    the ATR 0 the width is 0 and the three lows are 7/8. *)
Example coarse_lows_tie :
  let F := Rounded.coarse in
  let width := Rounded.zone_width F (Rounded.XFin 0) (Rounded.XFin 1) in
  let z := Rounded.make_zones F (Rounded.zone_center F (Rounded.XFin 1)) width in
  width = Rounded.XFin (0 # 8) /\
  fst (Rounded.aggressive z) = Rounded.XFin (7 # 8) /\
  fst (Rounded.neutral z) = Rounded.XFin (7 # 8) /\
  fst (Rounded.conservative z) = Rounded.XFin (7 # 8).
Proof. vm_compute. repeat split. Qed.

(** ** The result and its bands *)

(** The result carries the bands of its own last price and ATR. *)
Lemma calculate_logic_zones (df : DataFrame) (info : Info) (r : Res.t) :
  calculate_logic df info = Ok r ->
  Res.zones r =
    make_zones (zone_center (Res.last r))
               (zone_width (Res.atr (Res.metrics r)) (Res.last r)) /\
  Res.adds r = make_adds (Res.zones r).
Proof.
  intros H.
  destruct (dropna (col Close df)) as [|p close] eqn:Hc.
  - rewrite (calculate_logic_no_close df info Hc) in H. discriminate.
  - assert (Hne : dropna (col Close df) <> []) by (rewrite Hc; discriminate).
    destruct (calculate_logic_total df info Hne)
      as (last & rsi_last & rsi_prev & pr & atr & _ & _ & _ & _ & _ & Hres).
    rewrite Hres in H. injection H as <-. split; reflexivity.
Qed.

(** The signal of the result is the classifier run on its conditions. *)
Lemma calculate_logic_sig (df : DataFrame) (info : Info) (r : Res.t) :
  calculate_logic df info = Ok r ->
  Res.sig r =
    signal (fst (fst (Res.cond r))) (snd (fst (Res.cond r))) (snd (Res.cond r)).
Proof.
  intros H.
  destruct (dropna (col Close df)) as [|p close] eqn:Hc.
  - rewrite (calculate_logic_no_close df info Hc) in H. discriminate.
  - assert (Hne : dropna (col Close df) <> []) by (rewrite Hc; discriminate).
    destruct (calculate_logic_total df info Hne)
      as (last & rsi_last & rsi_prev & pr & atr & _ & _ & _ & _ & _ & Hres).
    rewrite Hres in H. injection H as <-. reflexivity.
Qed.

(** ** Wilder RSI *)

Section Ewm.

Variable alpha : Q.
Hypothesis alpha_pos : (0 < alpha)%Q.
Hypothesis alpha_le_1 : (alpha <= 1)%Q.

Lemma ewm_step_inv (st : ewm_state) (cur : float) :
  ewm_inv st -> nonneg cur -> ewm_inv (ewm_step alpha st cur).
Proof.
  intros [Hw Ho] Hc. unfold ewm_step, ewm_inv in *.
  destruct (weighted st) as [w|]; simpl in *.
  - assert (Hdecay : (0 <= old_wt st * (1 - alpha))%Q).
    { apply Qmult_le_0_compat; lra. }
    destruct cur as [c|]; simpl in *.
    + split; [|lra].
      destruct (Qeq_bool w c); simpl; [exact Hw|].
      apply Qle_shift_div_l; [lra|].
      assert (0 <= old_wt st * (1 - alpha) * w)%Q by (apply Qmult_le_0_compat; lra).
      assert (0 <= alpha * c)%Q by (apply Qmult_le_0_compat; lra).
      lra.
    + split; assumption.
  - split; assumption.
Qed.

Lemma ewm_run_nonneg (vals : list float) (st : ewm_state) :
  ewm_inv st -> Forall nonneg vals -> Forall nonneg (ewm_run alpha st vals).
Proof.
  revert st. induction vals as [|v vals IH]; intros st Hst Hvals; simpl.
  - constructor.
  - inversion Hvals as [|? ? Hv Hrest]; subst.
    pose proof (ewm_step_inv st v Hst Hv) as Hst'.
    constructor; [exact (proj1 Hst') | exact (IH _ Hst' Hrest)].
Qed.

Lemma ewm_mean_nonneg (vals : list float) :
  Forall nonneg vals -> Forall nonneg (ewm_mean alpha vals).
Proof.
  intros Hvals. destruct vals as [|v vals]; simpl; [constructor|].
  inversion Hvals as [|? ? Hv Hrest]; subst.
  constructor; [exact Hv|].
  apply ewm_run_nonneg; [|exact Hrest].
  split; simpl; [exact Hv | lra].
Qed.

End Ewm.

Lemma gain_nonneg (close : list float) : Forall nonneg (gain close).
Proof.
  unfold gain, clip_lower0. apply Forall_map, Forall_forall.
  intros [x|] _; simpl; [|exact I].
  destruct (Qlt_bool x 0) eqn:E; [lra|].
  apply Qlt_bool_false_iff in E. exact E.
Qed.

Lemma loss_nonneg (close : list float) : Forall nonneg (loss close).
Proof.
  unfold loss, clip_upper0. rewrite map_map. apply Forall_map, Forall_forall.
  intros [x|] _; simpl; [|exact I].
  destruct (Qlt_bool 0 x) eqn:E; [lra|].
  apply Qlt_bool_false_iff in E. lra.
Qed.

Lemma period_alpha (period : positive) : (0 < 1 # period)%Q /\ (1 # period <= 1)%Q.
Proof.
  split; [reflexivity|].
  unfold Qle. simpl. lia.
Qed.

Lemma avg_gain_nonneg (close : list float) (period : positive) :
  Forall nonneg (avg_gain close period).
Proof.
  destruct (period_alpha period) as [H0 H1].
  apply ewm_mean_nonneg; [exact H0 | exact H1 | apply gain_nonneg].
Qed.

Lemma avg_loss_nonneg (close : list float) (period : positive) :
  Forall nonneg (avg_loss close period).
Proof.
  destruct (period_alpha period) as [H0 H1].
  apply ewm_mean_nonneg; [exact H0 | exact H1 | apply loss_nonneg].
Qed.

Lemma avg_gain_length (close : list float) (period : positive) :
  length (avg_gain close period) = length close.
Proof.
  unfold avg_gain, gain, clip_lower0.
  now rewrite ewm_mean_length, length_map, diff_length.
Qed.

Lemma avg_loss_length (close : list float) (period : positive) :
  length (avg_loss close period) = length close.
Proof.
  unfold avg_loss, loss, clip_upper0.
  now rewrite ewm_mean_length, !length_map, diff_length.
Qed.

Lemma nth_error_zip_with {A B C : Type} (f : A -> B -> C)
      (a : list A) (b : list B) (i : nat) :
  nth_error (zip_with f a b) i =
    match nth_error a i, nth_error b i with
    | Some x, Some y => Some (f x y)
    | _, _ => None
    end.
Proof.
  revert b i. induction a as [|x a IH]; intros b i.
  - destruct i; reflexivity.
  - destruct b as [|y b].
    + destruct i; simpl; [reflexivity|]. now destruct (nth_error a i).
    + destruct i; simpl; [reflexivity | apply IH].
Qed.

(** The RSI at an index, from the smoothed gain and loss there. *)
Lemma rsi_wilder_nth (close : list float) (period : positive) (i : nat) :
  nth_error (rsi_wilder close period) i =
    match nth_error (avg_gain close period) i,
          nth_error (avg_loss close period) i with
    | Some g, Some l =>
        Some (rsi_of_rs
                (fdiv g (match l with
                         | Some q => if Qeq_bool q 0 then NaN else Some q
                         | None => NaN
                         end)))
    | _, _ => None
    end.
Proof.
  unfold rsi_wilder, replace0.
  rewrite nth_error_map, nth_error_zip_with, nth_error_map.
  unfold float.
  destruct (@nth_error (option Q) (avg_gain close period) i) as [g|];
    destruct (@nth_error (option Q) (avg_loss close period) i) as [l|]; reflexivity.
Qed.

(** C4, as stated, fails: on the closes 1, 2, 3 the smoothed loss at the
    last index is exactly 0 and the RSI there is NaN, not 100. *)
Lemma rsi_zero_loss_not_100 :
  exists l : Q,
    nth_error (avg_loss rising_closes 14) 2 = Some (Some l) /\
    (l == 0)%Q /\
    nth_error (rsi_wilder rising_closes 14) 2 = Some NaN /\
    nth_error (rsi_wilder rising_closes 14) 2 <> Some (Some 100%Q).
Proof.
  eexists. split; [vm_compute; reflexivity|].
  split; [reflexivity|]. split; [reflexivity|]. discriminate.
Qed.

(** C4, amended: at every index where the smoothed average loss is exactly
    0 the zero is replaced by NaN before the division, and the RSI returned
    there is NaN; no error is raised. *)
Theorem rsi_wilder_zero_loss (close : list float) (period : positive)
        (i : nat) (l : Q) :
  nth_error (avg_loss close period) i = Some (Some l) ->
  (l == 0)%Q ->
  nth_error (rsi_wilder close period) i = Some NaN.
Proof.
  intros Hl Hz. rewrite rsi_wilder_nth, Hl.
  destruct (nth_error (avg_gain close period) i) as [g|] eqn:Hg.
  - apply Qeq_bool_iff in Hz. rewrite Hz. destruct g; reflexivity.
  - apply nth_error_None in Hg.
    assert (Hi : i < length (avg_loss close period)).
    { apply nth_error_Some. rewrite Hl. discriminate. }
    rewrite avg_gain_length in Hg. rewrite avg_loss_length in Hi. lia.
Qed.

Lemma rsi_wilder_zero_loss_witness :
  nth_error (avg_loss rising_closes 14) 2 = Some (Some 0%Q) /\
  (0 == 0)%Q /\
  nth_error (rsi_wilder rising_closes 14) 2 = Some NaN.
Proof.
  split; [vm_compute; reflexivity|]. split; [reflexivity|].
  apply (rsi_wilder_zero_loss rising_closes 14 2 0%Q);
    [vm_compute; reflexivity | reflexivity].
Defined.

(** C5: on a close series of at least two prices every defined value of the
    RSI lies between 0 and 100. *)
Theorem rsi_wilder_bounds (close : list float) (period : positive)
        (i : nat) (v : Q) :
  2 <= length close ->
  nth_error (rsi_wilder close period) i = Some (Some v) ->
  (0 <= v <= 100)%Q.
Proof.
  intros _ Hv. rewrite rsi_wilder_nth in Hv.
  destruct (nth_error (avg_gain close period) i) as [g|] eqn:Hg; [|discriminate].
  destruct (nth_error (avg_loss close period) i) as [l|] eqn:Hl; [|discriminate].
  pose proof (avg_gain_nonneg close period) as HG.
  pose proof (avg_loss_nonneg close period) as HL.
  rewrite Forall_forall in HG, HL.
  specialize (HG g (nth_error_In _ _ Hg)).
  specialize (HL l (nth_error_In _ _ Hl)).
  injection Hv as Hv.
  destruct l as [lq|]; [|destruct g; discriminate].
  destruct (Qeq_bool lq 0) eqn:Hz; [destruct g; discriminate|].
  destruct g as [gq|]; [|discriminate].
  simpl in HG, HL.
  assert (Hlq : (0 < lq)%Q).
  { apply Qeq_bool_neq in Hz. destruct (Qlt_le_dec 0 lq) as [H|H]; [exact H|].
    exfalso. apply Hz. lra. }
  assert (Hrs : (0 <= gq / lq)%Q).
  { apply Qle_shift_div_l; [exact Hlq | lra]. }
  unfold rsi_of_rs, fdiv, fadd, fsub, lift2 in Hv. rewrite Hz in Hv.
  destruct (Qeq_bool (1 + gq / lq) 0) eqn:Hd; [discriminate|].
  injection Hv as <-.
  assert (Hpos : (0 < 1 + gq / lq)%Q) by lra.
  assert (H1 : (0 <= 100 / (1 + gq / lq))%Q).
  { apply Qle_shift_div_l; [exact Hpos | lra]. }
  assert (H2 : (100 / (1 + gq / lq) <= 100)%Q).
  { apply Qle_shift_div_r; [exact Hpos | lra]. }
  lra.
Qed.

Lemma rsi_wilder_bounds_witness :
  2 <= length mixed_closes /\
  exists v : Q,
    nth_error (rsi_wilder mixed_closes 14) 3 = Some (Some v) /\
    (0 <= v <= 100)%Q.
Proof.
  split; [simpl; lia|].
  eexists. split; [vm_compute; reflexivity|].
  apply (rsi_wilder_bounds mixed_closes 14 3); [simpl; lia | vm_compute; reflexivity].
Defined.

(** ** Percentile rank *)

Section Counting.

Lemma Qnat_add (a b : nat) : (Qnat (a + b) == Qnat a + Qnat b)%Q.
Proof. unfold Qnat. now rewrite Nat2Z.inj_add, inject_Z_plus. Qed.

Lemma Qnat_mul (a b : nat) : (Qnat (a * b) == Qnat a * Qnat b)%Q.
Proof. unfold Qnat. now rewrite Nat2Z.inj_mul, inject_Z_mult. Qed.

Lemma Qnat_le (a b : nat) : a <= b -> (Qnat a <= Qnat b)%Q.
Proof. intros H. unfold Qnat. rewrite <- Zle_Qle. lia. Qed.

Lemma Qnat_pos (a : nat) : 0 < a -> (0 < Qnat a)%Q.
Proof.
  intros H. unfold Qnat. change 0%Q with (inject_Z 0). rewrite <- Zlt_Qlt. lia.
Qed.

Lemma sum_seq_twice (a n : nat) :
  2 * list_sum (seq a n) + n = n * (2 * a + n).
Proof.
  revert a. induction n as [|n IH]; intros a; [reflexivity|].
  change (list_sum (seq a (S n))) with (a + list_sum (seq (S a) n)).
  specialize (IH (S a)). nia.
Qed.

(** The average of the positions [less + 1 .. less + dups]. *)
Lemma rank_average_closed (q : Q) (obs : list Q) :
  0 < count_eq q obs ->
  (rank_average q obs == Qnat (count_lt q obs) + (Qnat (count_eq q obs) + 1) / 2)%Q.
Proof.
  intros Hdups. unfold rank_average.
  set (dups := count_eq q obs) in *. set (less := count_lt q obs).
  pose proof (sum_seq_twice (less + 1) dups) as Hsum.
  apply (f_equal Qnat) in Hsum.
  assert (Hq : (2 * Qnat (list_sum (seq (less + 1) dups)) + Qnat dups ==
                Qnat dups * (2 * (Qnat less + 1) + Qnat dups))%Q).
  { rewrite <- (Qnat_add less 1), <- (Qnat_mul 2 (less + 1)).
    rewrite <- Qnat_add, <- Qnat_mul, <- Hsum, Qnat_add, Qnat_mul. reflexivity. }
  pose proof (Qnat_pos dups Hdups) as Hpos.
  clear Hsum. revert Hq Hpos.
  generalize (Qnat (list_sum (seq (less + 1) dups))) (Qnat dups) (Qnat less).
  intros S D L Hq Hpos.
  assert (Hsumq : (S == D * (L + (D + 1) / 2))%Q).
  { setoid_replace S with ((2 * S + D - D) / 2)%Q by field.
    rewrite Hq. field. }
  rewrite Hsumq. field. lra.
Qed.

Lemma filter_disjoint_length {A : Type} (f g : A -> bool) (l : list A) :
  (forall y, f y = true -> g y = false) ->
  length (filter f l) + length (filter g l) <= length l.
Proof.
  intros Hfg. induction l as [|y l IH]; simpl; [lia|].
  destruct (f y) eqn:Hf.
  - rewrite (Hfg y Hf). simpl. lia.
  - destruct (g y); simpl; lia.
Qed.

Lemma filter_split_length {A : Type} (f g h : A -> bool) (l : list A) :
  (forall y, h y = f y || g y) ->
  (forall y, f y = true -> g y = false) ->
  length (filter h l) = length (filter f l) + length (filter g l).
Proof.
  intros Hh Hfg. induction l as [|y l IH]; simpl; [reflexivity|].
  rewrite Hh. destruct (f y) eqn:Hf.
  - rewrite (Hfg y Hf). simpl. lia.
  - destruct (g y); simpl; lia.
Qed.

Lemma Qlt_not_eq_bool (y x : Q) : Qlt_bool y x = true -> Qeq_bool y x = false.
Proof.
  intros H. apply Qlt_bool_iff in H.
  destruct (Qeq_bool y x) eqn:E; [|reflexivity].
  apply Qeq_bool_iff in E. lra.
Qed.

Lemma Qle_bool_split (y x : Q) : Qle_bool y x = Qlt_bool y x || Qeq_bool y x.
Proof.
  destruct (Qlt_bool y x) eqn:Hlt; simpl.
  - apply Qle_bool_iff. apply Qlt_bool_iff in Hlt. lra.
  - apply Qlt_bool_false_iff in Hlt.
    destruct (Qeq_bool y x) eqn:Heq.
    + apply Qle_bool_iff. apply Qeq_bool_iff in Heq. lra.
    + apply Qeq_bool_neq in Heq.
      destruct (Qle_bool y x) eqn:Hle; [|reflexivity].
      apply Qle_bool_iff in Hle. exfalso. apply Heq. lra.
Qed.

Lemma count_lt_eq_le (x : Q) (w : list Q) :
  count_lt x w + count_eq x w <= length w.
Proof. apply filter_disjoint_length. intros y. apply Qlt_not_eq_bool. Qed.

Lemma count_le_split (x : Q) (w : list Q) :
  length (filter (fun y => Qle_bool y x) w) = count_lt x w + count_eq x w.
Proof.
  apply filter_split_length.
  - intros y. apply Qle_bool_split.
  - intros y. apply Qlt_not_eq_bool.
Qed.

Lemma count_eq_last (x : Q) (w : list Q) : 0 < count_eq x (w ++ [x]).
Proof.
  unfold count_eq. rewrite filter_app, length_app. simpl.
  assert (E : Qeq_bool x x = true) by (apply Qeq_bool_iff; reflexivity).
  rewrite E. simpl. lia.
Qed.

Lemma count_below (x : Q) (w : list Q) :
  Forall (fun y => (y < x)%Q) w ->
  count_lt x (w ++ [x]) = length w /\ count_eq x (w ++ [x]) = 1.
Proof.
  intros Hall. unfold count_lt, count_eq. rewrite !filter_app, !length_app.
  assert (Hx1 : Qlt_bool x x = false) by (apply Qlt_bool_false_iff; lra).
  assert (Hx2 : Qeq_bool x x = true) by (apply Qeq_bool_iff; reflexivity).
  simpl. rewrite Hx1, Hx2. simpl.
  induction Hall as [|y w Hy Hall [IH1 IH2]]; simpl; [split; reflexivity|].
  apply Qlt_bool_iff in Hy. rewrite Hy, (Qlt_not_eq_bool _ _ Hy). simpl. lia.
Qed.

End Counting.

Lemma Qhalf (a : Q) : (a / 2 == a * (1 # 2))%Q.
Proof. reflexivity. Qed.

(** Counts are opaque atoms for the linear arithmetic of [lra]. *)
Ltac qnat_atoms :=
  repeat match goal with
         | |- context [Qnat ?n] =>
             let q := fresh "q" in set (q := Qnat n) in *; clearbody q
         | H : context [Qnat ?n] |- _ =>
             let q := fresh "q" in set (q := Qnat n) in *; clearbody q
         end.

Lemma observations_some (w : list Q) : observations (map Some w) = w.
Proof.
  unfold observations. induction w as [|q w IH]; simpl; [reflexivity|].
  now rewrite IH.
Qed.

Lemma tail_map {A B : Type} (f : A -> B) (n : nat) (l : list A) :
  tail n (map f l) = map f (tail n l).
Proof. unfold tail. now rewrite length_map, skipn_map. Qed.

Lemma StronglySorted_skipn {A : Type} (R : A -> A -> Prop) (n : nat) (l : list A) :
  StronglySorted R l -> StronglySorted R (skipn n l).
Proof.
  revert l. induction n as [|n IH]; intros l H; [exact H|].
  destruct l as [|a l]; [exact H|].
  simpl. apply IH. now apply StronglySorted_inv in H.
Qed.

Lemma StronglySorted_snoc {A : Type} (R : A -> A -> Prop) (l : list A) (x : A) :
  StronglySorted R (l ++ [x]) -> Forall (fun y => R y x) l.
Proof.
  induction l as [|a l IH]; intros H; [constructor|].
  simpl in H. apply StronglySorted_inv in H as [Hl Ha].
  constructor; [|exact (IH Hl)].
  rewrite Forall_forall in Ha. apply Ha, in_or_app. right. now left.
Qed.

(** The rank the code computes, on a window that ends with [x]. *)
Lemma percentile_rank_value (closes : list Q) :
  closes <> [] ->
  tail 756 closes <> [] /\
  List.last (tail 756 closes) 0%Q = List.last closes 0%Q /\
  percentile_rank (map Some closes) =
    Ok (Some (rank_average (List.last closes 0%Q) (tail 756 closes)
              / Qnat (length (tail 756 closes)))%Q).
Proof.
  intros Hne. destruct (exists_last Hne) as (l & x & ->).
  destruct (tail_snoc 756 l x) as (w & Hw & _); [lia|].
  rewrite Hw, !last_last. split; [now destruct w|]. split; [reflexivity|].
  unfold percentile_rank. rewrite tail_map, Hw.
  unfold rank_pct. rewrite observations_some, map_map, map_app. simpl.
  apply iloc_back_snoc.
Qed.

(** C6, as stated, fails: on the closes 1, 1 the rank is 3/4, while the
    fraction of the window at most the last close is 1. *)
Lemma percentile_rank_tie_not_inclusive :
  exists p : Q,
    percentile_rank (map Some tied_closes) = Ok (Some p) /\
    (p == 3 # 4)%Q /\
    (spec_fraction_le (tail 756 tied_closes) (List.last tied_closes 0%Q) == 1)%Q /\
    ~ (p == spec_fraction_le (tail 756 tied_closes) (List.last tied_closes 0%Q))%Q.
Proof.
  eexists. split; [vm_compute; reflexivity|].
  split; [reflexivity|]. split; [reflexivity|]. discriminate.
Qed.

(** C6, amended: over the trailing 756 closes the rank of the last close is
    the number of closes below it plus half of (the number of closes equal
    to it, itself included, plus one), over the size of the window -- ties
    take the average rank; it is the fraction of closes at most the last one
    when no other close of the window equals it; it lies in [0,1] for every
    non-empty series and is 1 on a strictly increasing one. *)
Theorem percentile_rank_average (closes : list Q) :
  closes <> [] ->
  let w := tail 756 closes in
  let x := List.last closes 0%Q in
  exists p : Q,
    percentile_rank (map Some closes) = Ok (Some p) /\
    (p == (Qnat (count_lt x w) + (Qnat (count_eq x w) + 1) / 2) / Qnat (length w))%Q /\
    (0 <= p <= 1)%Q /\
    (count_eq x w = 1 -> (p == spec_fraction_le w x)%Q) /\
    (strictly_increasing closes -> (p == 1)%Q).
Proof.
  intros Hne w x.
  destruct (percentile_rank_value closes Hne) as (Hw & Hlast & Hpr).
  fold w in Hw, Hlast, Hpr. fold x in Hlast, Hpr.
  assert (Hsorted : StronglySorted Qlt closes -> StronglySorted Qlt w)
    by apply StronglySorted_skipn.
  clearbody w x.
  destruct (exists_last Hw) as (w' & y & Ew).
  assert (Ey : y = x) by (rewrite Ew, last_last in Hlast; exact Hlast).
  subst y.
  assert (Hdups : 0 < count_eq x w) by (rewrite Ew; apply count_eq_last).
  pose proof (count_lt_eq_le x w) as Hcount.
  assert (Hn : 0 < length w) by (rewrite Ew, length_app; simpl; lia).
  pose proof (rank_average_closed x w Hdups) as Hclosed.
  pose proof (Qnat_pos _ Hn) as HN.
  pose proof (Qnat_le _ _ Hdups) as HE. change (Qnat 1) with 1%Q in HE.
  pose proof (Qnat_le _ _ Hcount) as HLE. rewrite Qnat_add in HLE.
  pose proof (Qnat_le _ _ (Nat.le_0_l (count_lt x w))) as HL.
  change (Qnat 0) with 0%Q in HL.
  exists (rank_average x w / Qnat (length w))%Q.
  split; [exact Hpr|]. split; [now rewrite Hclosed|]. split; [|split].
  - rewrite Hclosed. split.
    + apply Qle_shift_div_l; [exact HN | rewrite Qhalf; qnat_atoms; lra].
    + apply Qle_shift_div_r; [exact HN | rewrite Qhalf; qnat_atoms; lra].
  - intros H1. rewrite Hclosed. unfold spec_fraction_le.
    rewrite count_le_split, Qnat_add, H1. change (Qnat 1) with 1%Q.
    qnat_atoms. field. lra.
  - intros Hs. unfold strictly_increasing in Hs.
    assert (Hsw : StronglySorted Qlt (w' ++ [x])).
    { rewrite <- Ew. exact (Hsorted Hs). }
    apply StronglySorted_snoc in Hsw.
    destruct (count_below x w' Hsw) as [Hlt Heq].
    rewrite Hclosed, Ew, Hlt, Heq, length_app, Qnat_add. simpl length.
    change (Qnat 1) with 1%Q.
    pose proof (Qnat_le _ _ (Nat.le_0_l (length w'))) as H0.
    change (Qnat 0) with 0%Q in H0.
    qnat_atoms. field. lra.
Qed.

Lemma percentile_rank_average_witness :
  climbing_closes <> [] /\
  exists p : Q,
    percentile_rank (map Some climbing_closes) = Ok (Some p) /\
    (p == (Qnat (count_lt 3 climbing_closes)
           + (Qnat (count_eq 3 climbing_closes) + 1) / 2)
          / Qnat (length climbing_closes))%Q /\
    (0 <= p <= 1)%Q /\
    (count_eq 3 climbing_closes = 1 -> (p == spec_fraction_le climbing_closes 3)%Q) /\
    (strictly_increasing climbing_closes -> (p == 1)%Q).
Proof.
  split; [discriminate|].
  apply (percentile_rank_average climbing_closes). discriminate.
Defined.

(** * Further properties of the code *)

(** ** [format_ticker] and [get_market_config], branch by branch *)

Section CharFacts.

Lemma upper_char_idem (c : ascii) : upper_char (upper_char c) = upper_char c.
Proof. destruct c as [[] [] [] [] [] [] [] []]; reflexivity. Qed.

Lemma isspace_upper_char (c : ascii) : isspace (upper_char c) = isspace c.
Proof. destruct c as [[] [] [] [] [] [] [] []]; reflexivity. Qed.

Lemma isdigit_char_facts (c : ascii) :
  isdigit_char c = true ->
  isspace c = false /\ upper_char c = c /\ Ascii.eqb "." c = false.
Proof.
  destruct c as [[] [] [] [] [] [] [] []]; intros H;
    first [discriminate H | repeat split; reflexivity].
Qed.

Lemma upper_idem (s : str) : upper (upper s) = upper s.
Proof.
  unfold upper. rewrite map_map. apply map_ext. exact upper_char_idem.
Qed.

Lemma upper_app (a b : str) : upper (a ++ b) = upper a ++ upper b.
Proof. apply map_app. Qed.

Lemma lstrip_upper (s : str) : lstrip (upper s) = upper (lstrip s).
Proof.
  induction s as [|c s IH]; [reflexivity|].
  cbn [upper map lstrip]. rewrite isspace_upper_char.
  destruct (isspace c); [exact IH | reflexivity].
Qed.

Lemma strip_upper (s : str) : strip (upper s) = upper (strip s).
Proof.
  unfold strip, rstrip. rewrite lstrip_upper.
  unfold upper at 1. rewrite <- map_rev. fold (upper (rev (lstrip s))).
  rewrite lstrip_upper. unfold upper. now rewrite map_rev.
Qed.

End CharFacts.

Section StripFacts.

Lemma lstrip_clean (s : str) : starts_clean s -> lstrip s = s.
Proof.
  destruct s as [|c s]; [reflexivity|]. simpl. now intros ->.
Qed.

Lemma lstrip_starts_clean (s : str) : starts_clean (lstrip s).
Proof.
  induction s as [|c s IH]; simpl; [exact I|].
  destruct (isspace c) eqn:E; [exact IH | exact E].
Qed.

(** [lstrip] removes a blank prefix and nothing else. *)
Lemma lstrip_split (s : str) :
  exists w, s = w ++ lstrip s /\ forallb isspace w = true.
Proof.
  induction s as [|c s (w & Hw & Hblank)]; [now exists []|].
  simpl. destruct (isspace c) eqn:E.
  - exists (c :: w). split; [simpl; now rewrite <- Hw | simpl; now rewrite E].
  - now exists [].
Qed.

Lemma rstrip_split (s : str) :
  exists w, s = rstrip s ++ w /\ forallb isspace w = true.
Proof.
  unfold rstrip. destruct (lstrip_split (rev s)) as (w & Hw & Hblank).
  exists (rev w). split.
  - rewrite <- rev_app_distr, <- Hw. symmetry. apply rev_involutive.
  - rewrite forallb_forall in *. intros c Hc. apply Hblank. now apply in_rev.
Qed.

Lemma rstrip_starts_clean (s : str) : starts_clean s -> starts_clean (rstrip s).
Proof.
  intros Hs. destruct (rstrip_split s) as (w & Hw & _).
  destruct (rstrip s) as [|c t]; [exact I|].
  rewrite Hw in Hs. exact Hs.
Qed.

Lemma rstrip_idem (s : str) : rstrip (rstrip s) = rstrip s.
Proof.
  unfold rstrip. rewrite rev_involutive.
  now rewrite (lstrip_clean _ (lstrip_starts_clean (rev s))).
Qed.

Lemma strip_idem (s : str) : strip (strip s) = strip s.
Proof.
  unfold strip.
  rewrite (lstrip_clean (rstrip (lstrip s))).
  - apply rstrip_idem.
  - apply rstrip_starts_clean, lstrip_starts_clean.
Qed.

Lemma normal_form_fixed (s : str) : upper (strip (upper (strip s))) = upper (strip s).
Proof. now rewrite strip_upper, strip_idem, upper_idem. Qed.

End StripFacts.

Section TickerBranches.

Lemma zfill_length (width : nat) (s : str) :
  length (zfill width s) = Nat.max width (length s).
Proof.
  unfold zfill. destruct (Nat.leb_spec width (length s)) as [H|H]; [lia|].
  destruct s as [|c t].
  - rewrite repeat_length. simpl. lia.
  - destruct (Ascii.eqb c "+" || Ascii.eqb c "-");
      cbn [length]; rewrite length_app, repeat_length; cbn [length]; lia.
Qed.

Lemma zfill_long (width : nat) (s : str) : width <= length s -> zfill width s = s.
Proof.
  intros H. unfold zfill.
  destruct (Nat.leb_spec width (length s)); [reflexivity | lia].
Qed.

Lemma endswith_hk_upper (s : str) :
  endswith s (lit ".HK") = true -> endswith (upper s) (lit ".HK") = true.
Proof.
  intros H. apply endswith_spec in H as [p ->].
  apply endswith_spec. exists (upper p). apply upper_app.
Qed.

Lemma contains_count (c : ascii) (s : str) :
  contains c s = false -> count_occ ascii_dec s c = 0.
Proof.
  induction s as [|x s IH]; [reflexivity|]. simpl.
  intros H. apply orb_false_iff in H as [Hx Hs].
  destruct (ascii_dec x c) as [->|Hn].
  - now rewrite Ascii.eqb_refl in Hx.
  - exact (IH Hs).
Qed.

Lemma no_dot_no_suffix (s suf : str) :
  contains "." s = false -> contains "." suf = true -> endswith s suf = false.
Proof.
  intros Hs Hsuf. destruct (endswith s suf) eqn:E; [|reflexivity].
  apply endswith_spec in E as [p ->].
  rewrite contains_app, Hsuf, orb_true_r in Hs. discriminate.
Qed.

Lemma no_dot_upper (s : str) : contains "." s = false -> contains "." (upper s) = false.
Proof.
  intros H. destruct (contains "." (upper s)) eqn:E; [|reflexivity].
  apply contains_count in H.
  assert (Hpos : 0 < count_occ ascii_dec (upper s) "."%char).
  { apply contains_first in E as (a & t & -> & _).
    rewrite count_occ_app, count_occ_cons_eq by reflexivity. lia. }
  rewrite count_dots_upper in Hpos. lia.
Qed.

(** A ticker without a dot belongs to the US market. *)
Lemma no_dot_is_us (t : str) :
  contains "." t = false -> get_market_config t = ("USD $", "美股")%string.
Proof.
  intros H. apply no_dot_upper in H. unfold get_market_config, endswith_any.
  cbn [existsb].
  rewrite !(no_dot_no_suffix _ _ H) by reflexivity. reflexivity.
Qed.

Lemma replace_no_dot (s : str) : contains "." (replace "." "-" s) = false.
Proof.
  induction s as [|c s IH]; [reflexivity|].
  cbn [replace map contains existsb]. fold (replace "." "-" s).
  fold (contains "." (replace "." "-" s)). rewrite IH, orb_false_r.
  destruct (Ascii.eqb c ".") eqn:E; [reflexivity|].
  now rewrite Ascii.eqb_sym.
Qed.

Lemma endswith_exclusive (s a b : str) (x y : ascii) :
  x <> y ->
  endswith s (a ++ [x]) = true -> endswith s (b ++ [y]) = false.
Proof.
  intros Hxy Ha. destruct (endswith s (b ++ [y])) eqn:Hb; [|reflexivity].
  apply endswith_spec in Ha as [p Hp]. apply endswith_spec in Hb as [q Hq].
  rewrite Hp in Hq. rewrite !app_assoc in Hq.
  apply app_inj_tail in Hq as [_ E]. contradiction.
Qed.

Lemma digits_normal (s : str) :
  forallb isdigit_char s = true ->
  upper (strip s) = s /\ contains "." s = false.
Proof.
  intros Hd. rewrite forallb_forall in Hd.
  assert (Hclean : forall t : str, (forall c, In c t -> isdigit_char c = true) ->
                                   lstrip t = t).
  { intros t Ht. apply lstrip_clean. destruct t as [|c t]; [exact I|].
    simpl. apply isdigit_char_facts, Ht. now left. }
  assert (Hstrip : strip s = s).
  { unfold strip, rstrip. rewrite (Hclean s Hd).
    rewrite (Hclean (rev s)); [apply rev_involutive|].
    intros c Hc. apply Hd. now apply in_rev. }
  rewrite Hstrip. split.
  - unfold upper. rewrite <- (map_id s) at 2. apply map_ext_in.
    intros c Hc. now apply isdigit_char_facts, Hd.
  - destruct (contains "." s) eqn:E; [|reflexivity].
    unfold contains in E. apply existsb_exists in E as (c & Hc & E).
    apply Hd, isdigit_char_facts in Hc. destruct Hc as (_ & _ & Hc). congruence.
Qed.

End TickerBranches.

(** X1: the normaliser rejects no input: the indexing [parts[1]] of the
    [.HK] branch is always in range, so no [IndexError] escapes. *)
Theorem format_ticker_never_raises (raw : str) :
  exists t : str,
    format_ticker raw = Ok t /\ forall e : string, format_ticker raw <> Raise e.
Proof.
  destruct (format_ticker_total raw) as [t Ht]. exists t.
  split; [exact Ht|]. intros e. rewrite Ht. discriminate.
Qed.

(** X2: for an ASCII input whose stripped, upper-cased form is [p.HK] with
    no dot in [p], the result is [p] filled with zeros to five characters
    followed by [.HK]; a prefix of five or more characters is kept as it
    is, and the result is recognised as a Hong Kong ticker. *)
Theorem format_ticker_hk_pads (raw p : str) :
  is_ascii raw = true ->
  raw <> [] ->
  upper (strip raw) = p ++ lit ".HK" ->
  contains "." p = false ->
  format_ticker raw = Ok (zfill 5 p ++ lit ".HK") /\
  length (zfill 5 p) = Nat.max 5 (length p) /\
  (5 <= length p -> zfill 5 p = p) /\
  get_market_config (zfill 5 p ++ lit ".HK") = ("HKD $", "港股")%string.
Proof.
  intros _ Hne Hu Hp. split; [|split; [|split]].
  - destruct raw as [|c0 s0]; [congruence|].
    unfold format_ticker. cbv beta iota zeta. rewrite Hu.
    assert (Hend : endswith (p ++ lit ".HK") (lit ".HK") = true)
      by (apply endswith_spec; now exists p).
    assert (Hsp : split "." (p ++ lit ".HK") = [p; lit "HK"])
      by exact (split_first "." p (lit "HK") Hp).
    rewrite Hend, Hsp. reflexivity.
  - apply zfill_length.
  - apply zfill_long.
  - unfold get_market_config.
    rewrite endswith_hk_upper; [reflexivity|].
    apply endswith_spec. now exists (zfill 5 p).
Qed.

Lemma format_ticker_hk_pads_witness :
  is_ascii (lit " 700.hk") = true /\
  lit " 700.hk" <> [] /\
  upper (strip (lit " 700.hk")) = lit "700" ++ lit ".HK" /\
  contains "." (lit "700") = false /\
  format_ticker (lit " 700.hk") = Ok (zfill 5 (lit "700") ++ lit ".HK") /\
  length (zfill 5 (lit "700")) = Nat.max 5 (length (lit "700")) /\
  (5 <= length (lit "700") -> zfill 5 (lit "700") = lit "700") /\
  get_market_config (zfill 5 (lit "700") ++ lit ".HK") = ("HKD $", "港股")%string.
Proof.
  split; [reflexivity|].
  split; [discriminate|]. split; [reflexivity|]. split; [reflexivity|].
  apply (format_ticker_hk_pads (lit " 700.hk") (lit "700"));
    [reflexivity | discriminate | reflexivity | reflexivity].
Defined.

(** X3: an input of exactly six digits gets the suffix [.SS] when it starts
    with 6 or 9 and [.SZ] otherwise, and the result is recognised as a
    mainland ticker. *)
Theorem format_ticker_six_digits (s : str) :
  forallb isdigit_char s = true ->
  length s = 6 ->
  let suffix := if startswith_any s [lit "6"; lit "9"] then lit ".SS" else lit ".SZ" in
  format_ticker s = Ok (s ++ suffix) /\
  get_market_config (s ++ suffix) = ("CNY ¥", "A股")%string.
Proof.
  intros Hd Hlen suffix.
  destruct (digits_normal s Hd) as [Hnorm Hdot].
  assert (Hnohk : forall t : str, endswith t (lit ".HK") = true ->
                                  endswith_any t [lit ".SS"; lit ".SZ"] = true -> False).
  { intros t Hhk Hss. unfold endswith_any in Hss. cbn [existsb] in Hss.
    rewrite orb_false_r in Hss. apply orb_true_iff in Hss as [Hss|Hss].
    - assert (E : endswith t (lit ".HK") = false)
        by (apply (endswith_exclusive t (lit ".S") (lit ".H") "S" "K");
            [discriminate | exact Hss]).
      congruence.
    - assert (E : endswith t (lit ".HK") = false)
        by (apply (endswith_exclusive t (lit ".S") (lit ".H") "Z" "K");
            [discriminate | exact Hss]).
      congruence. }
  split.
  - destruct s as [|c0 s0]; [discriminate|].
    unfold format_ticker. cbv beta iota zeta. rewrite Hnorm.
    rewrite (no_dot_no_suffix _ _ Hdot) by reflexivity.
    rewrite Hdot. cbn [andb].
    assert (Hdig : isdigit (c0 :: s0) = true) by exact Hd.
    rewrite Hdig, Hlen. cbn [andb Nat.eqb]. unfold suffix.
    destruct (startswith_any (c0 :: s0) [lit "6"; lit "9"]); reflexivity.
  - assert (Hss : endswith_any (upper (s ++ suffix)) [lit ".SS"; lit ".SZ"] = true).
    { unfold endswith_any. cbn [existsb]. rewrite upper_app.
      unfold suffix. destruct (startswith_any s [lit "6"; lit "9"]).
      - apply orb_true_iff. left. apply endswith_spec. now exists (upper s).
      - apply orb_true_iff. right. apply orb_true_iff. left.
        apply endswith_spec. now exists (upper s). }
    unfold get_market_config.
    destruct (endswith (upper (s ++ suffix)) (lit ".HK")) eqn:Hhk.
    + exfalso. exact (Hnohk _ Hhk Hss).
    + now rewrite Hss.
Qed.

Lemma format_ticker_six_digits_witness :
  forallb isdigit_char (lit "600519") = true /\
  length (lit "600519") = 6 /\
  format_ticker (lit "600519") = Ok (lit "600519" ++ lit ".SS") /\
  get_market_config (lit "600519" ++ lit ".SS") = ("CNY ¥", "A股")%string.
Proof.
  split; [reflexivity|]. split; [reflexivity|].
  apply (format_ticker_six_digits (lit "600519")); reflexivity.
Defined.

Lemma mainland_not_hk (t : str) :
  endswith_any t [lit ".SS"; lit ".SZ"] = true -> endswith t (lit ".HK") = false.
Proof.
  intros Hss. unfold endswith_any in Hss. cbn [existsb] in Hss.
  rewrite orb_false_r in Hss. apply orb_true_iff in Hss as [Hss|Hss].
  - apply (endswith_exclusive t (lit ".S") (lit ".H") "S" "K");
      [discriminate | exact Hss].
  - apply (endswith_exclusive t (lit ".S") (lit ".H") "Z" "K");
      [discriminate | exact Hss].
Qed.

Lemma mainland_not_digits (t : str) :
  endswith_any t [lit ".SS"; lit ".SZ"] = true -> isdigit t = false.
Proof.
  intros Hss. unfold endswith_any in Hss. cbn [existsb] in Hss.
  rewrite orb_false_r in Hss.
  assert (Hp : exists p suf, t = p ++ "."%char :: suf).
  { apply orb_true_iff in Hss as [Hss|Hss];
      apply endswith_spec in Hss as [p ->]; [now exists p, (lit "SS") | now exists p, (lit "SZ")]. }
  destruct Hp as (p & suf & ->). unfold isdigit.
  destruct (p ++ "."%char :: suf) eqn:E; [reflexivity|]. rewrite <- E.
  rewrite forallb_app. cbn [forallb]. apply andb_false_r.
Qed.

(** X4: for an ASCII input whose stripped, upper-cased form holds a dot
    and ends in none of [.HK], [.SS], [.SZ], every dot becomes a dash: the
    result has the same length, holds no dot any more and is classified as a
    US ticker. *)
Theorem format_ticker_dots_to_dashes (raw : str) :
  is_ascii raw = true ->
  raw <> [] ->
  contains "." (upper (strip raw)) = true ->
  endswith_any (upper (strip raw)) [lit ".HK"; lit ".SS"; lit ".SZ"] = false ->
  format_ticker raw = Ok (replace "." "-" (upper (strip raw))) /\
  length (replace "." "-" (upper (strip raw))) = length (upper (strip raw)) /\
  contains "." (replace "." "-" (upper (strip raw))) = false /\
  get_market_config (replace "." "-" (upper (strip raw))) = ("USD $", "美股")%string.
Proof.
  intros _ Hne Hdot Hsuf.
  unfold endswith_any in Hsuf. cbn [existsb] in Hsuf.
  apply orb_false_iff in Hsuf as [Hhk Hss].
  split; [|split; [|split]].
  - destruct raw as [|c0 s0]; [congruence|].
    unfold format_ticker. cbv beta iota zeta.
    unfold endswith_any. cbn [existsb]. now rewrite Hhk, Hdot, Hss.
  - apply length_map.
  - apply replace_no_dot.
  - apply no_dot_is_us, replace_no_dot.
Qed.

Lemma format_ticker_dots_to_dashes_witness :
  is_ascii (lit "  brk.b ") = true /\
  lit "  brk.b " <> [] /\
  contains "." (upper (strip (lit "  brk.b "))) = true /\
  endswith_any (upper (strip (lit "  brk.b "))) [lit ".HK"; lit ".SS"; lit ".SZ"] = false /\
  format_ticker (lit "  brk.b ") = Ok (replace "." "-" (upper (strip (lit "  brk.b ")))) /\
  length (replace "." "-" (upper (strip (lit "  brk.b ")))) =
    length (upper (strip (lit "  brk.b "))) /\
  contains "." (replace "." "-" (upper (strip (lit "  brk.b ")))) = false /\
  get_market_config (replace "." "-" (upper (strip (lit "  brk.b ")))) =
    ("USD $", "美股")%string.
Proof.
  split; [reflexivity|].
  split; [discriminate|]. split; [reflexivity|]. split; [reflexivity|].
  apply (format_ticker_dots_to_dashes (lit "  brk.b "));
    [reflexivity | discriminate | reflexivity | reflexivity].
Defined.

(** X5: an ASCII symbol that already ends in [.SS] or [.SZ] once stripped
    and upper-cased is returned in that form, its dot kept, and is
    classified as a mainland ticker. *)
Theorem format_ticker_keeps_mainland (raw : str) :
  is_ascii raw = true ->
  raw <> [] ->
  endswith_any (upper (strip raw)) [lit ".SS"; lit ".SZ"] = true ->
  format_ticker raw = Ok (upper (strip raw)) /\
  get_market_config (upper (strip raw)) = ("CNY ¥", "A股")%string.
Proof.
  intros _ Hne Hss. split.
  - destruct raw as [|c0 s0]; [congruence|].
    unfold format_ticker. cbv beta iota zeta.
    rewrite (mainland_not_hk _ Hss), Hss, (mainland_not_digits _ Hss).
    cbn [negb]. rewrite andb_false_r. reflexivity.
  - unfold get_market_config. rewrite upper_idem.
    now rewrite (mainland_not_hk _ Hss), Hss.
Qed.

Lemma format_ticker_keeps_mainland_witness :
  is_ascii (lit "000001.sz") = true /\
  lit "000001.sz" <> [] /\
  endswith_any (upper (strip (lit "000001.sz"))) [lit ".SS"; lit ".SZ"] = true /\
  format_ticker (lit "000001.sz") = Ok (upper (strip (lit "000001.sz"))) /\
  get_market_config (upper (strip (lit "000001.sz"))) = ("CNY ¥", "A股")%string.
Proof.
  split; [reflexivity|]. split; [discriminate|]. split; [reflexivity|].
  apply (format_ticker_keeps_mainland (lit "000001.sz"));
    [reflexivity | discriminate | reflexivity].
Defined.

(** X6: case and surrounding whitespace never matter: an input that is not
    blank is normalised exactly as its stripped, upper-cased form is. *)
Theorem format_ticker_ignores_case_and_padding (raw : str) :
  strip raw <> [] ->
  format_ticker raw = format_ticker (upper (strip raw)).
Proof.
  intros Hne.
  assert (Hraw : raw <> []) by (intros ->; now apply Hne).
  assert (Hu : upper (strip raw) <> []).
  { destruct (strip raw); [congruence | discriminate]. }
  destruct raw as [|c0 s0]; [congruence|].
  destruct (upper (strip (c0 :: s0))) as [|c1 s1] eqn:E; [congruence|].
  pose proof (normal_form_fixed (c0 :: s0)) as F. rewrite E in F.
  unfold format_ticker. cbv beta iota zeta. rewrite E, F. reflexivity.
Qed.

Lemma format_ticker_ignores_case_and_padding_witness :
  strip (lit " 700.hk ") <> [] /\
  format_ticker (lit " 700.hk ") = format_ticker (upper (strip (lit " 700.hk "))).
Proof.
  split; [discriminate|].
  apply (format_ticker_ignores_case_and_padding (lit " 700.hk ")). discriminate.
Defined.

(** ** The close series of a table *)

Section CloseSeries.

Lemma values_dropna_combine (k : nat) (l : list float) :
  values (dropna (combine (seq k (length l)) l)) =
    filter (fun x => negb (isnan x)) l.
Proof.
  revert k. induction l as [|x l IH]; intros k; [reflexivity|].
  cbn [length seq combine dropna filter snd].
  fold (dropna (combine (seq (S k) (length l)) l)).
  destruct (negb (isnan x)); cbn [values map snd]; fold (values);
    now rewrite <- (IH (S k)).
Qed.

(** The close series is the column without its NaN, in order. *)
Lemma values_dropna_col (f : Bar -> float) (df : DataFrame) :
  values (dropna (col f df)) = filter (fun x => negb (isnan x)) (map f df).
Proof.
  unfold col. rewrite <- (length_map f df). apply values_dropna_combine.
Qed.

Lemma dropna_col_nil (df : DataFrame) :
  dropna (col Close df) = [] <-> forall b, In b df -> Close b = NaN.
Proof.
  assert (E : dropna (col Close df) = [] <-> values (dropna (col Close df)) = []).
  { unfold values. destruct (dropna (col Close df)); simpl; split; congruence. }
  rewrite E, values_dropna_col. clear E.
  induction df as [|b df IH]; simpl.
  - split; [intros _ b [] | reflexivity].
  - destruct (Close b) as [q|] eqn:Hb; simpl.
    + split; [discriminate|]. intros H. specialize (H b (or_introl eq_refl)).
      rewrite Hb in H. discriminate H.
    + rewrite IH. split.
      * intros H b' [<-|Hin]; [exact Hb | now apply H].
      * intros H b' Hin. apply H. now right.
Qed.

End CloseSeries.

(** Every step of [calculate_logic] on a table with a valid close. *)
Lemma calculate_logic_parts (df : DataFrame) (info : Info) :
  dropna (col Close df) <> [] ->
  let close := values (dropna (col Close df)) in
  let rsi := rsi_wilder close 14 in
  exists last rsi_last rsi_prev pr atr,
    iloc_back close 1 = Ok last /\
    iloc_back rsi 1 = Ok rsi_last /\
    (if 2 <? length rsi then iloc_back rsi 2 else Ok rsi_last) = Ok rsi_prev /\
    percentile_rank close = Ok pr /\
    average_true_range (true_range df (dropna (col Close df))) = Ok atr /\
    calculate_logic df info =
      Ok {| Res.last := last;
            Res.sig := signal (flt pr (Some 0.30%Q)) (flt rsi_last (Some 35%Q))
                              (fgt rsi_last rsi_prev);
            Res.zones := make_zones (zone_center last) (zone_width atr last);
            Res.adds := make_adds (make_zones (zone_center last) (zone_width atr last));
            Res.metrics := {| Res.rsi := rsi_last; Res.pr_3y := pr; Res.atr := atr |};
            Res.cond := (flt pr (Some 0.30%Q), flt rsi_last (Some 35%Q),
                         fgt rsi_last rsi_prev) |}.
Proof.
  intros Hne close rsi.
  destruct (calculate_logic_total df info Hne)
    as (last & rsi_last & rsi_prev0 & pr & atr & Hlast & Hrsi & Hpr & Hatr & _ & Hres).
  fold close in Hlast, Hrsi, Hpr. fold rsi in Hrsi.
  assert (Hprev : exists rsi_prev,
             (if 2 <? length rsi then iloc_back rsi 2 else Ok rsi_last) = Ok rsi_prev).
  { destruct (Nat.ltb_spec 2 (length rsi)) as [H|H].
    - destruct (iloc_back_ok rsi 2) as (x & Hx & _); [lia | now exists x].
    - now exists rsi_last. }
  destruct Hprev as (rsi_prev & Hprev).
  exists last, rsi_last, rsi_prev, pr, atr.
  repeat (split; [assumption|]).
  unfold calculate_logic. fold close. fold rsi.
  rewrite Hlast. cbn [bind]. rewrite Hrsi. cbn [bind]. rewrite Hprev. cbn [bind].
  rewrite Hpr. cbn [bind]. rewrite Hatr. reflexivity.
Qed.

Lemma some_valid_close (df : DataFrame) :
  dropna (col Close df) <> [] -> exists b, In b df /\ Close b <> NaN.
Proof.
  intros Hne.
  assert (Hex : ~ forall b, In b df -> Close b = NaN).
  { intros H. now apply dropna_col_nil in H. }
  clear Hne. induction df as [|b df IH].
  - elim Hex. intros b [].
  - destruct (Close b) as [q|] eqn:Hb.
    + exists b. split; [now left | rewrite Hb; discriminate].
    + destruct IH as (b' & Hin & Hb').
      * intros H. apply Hex. intros b' [<-|Hin]; [exact Hb | now apply H].
      * exists b'. split; [now right | exact Hb'].
Qed.

(** The two ways [calculate_logic] can end. *)
Lemma calculate_logic_cases (df : DataFrame) (info : Info) :
  ((forall b, In b df -> Close b = NaN) /\
   calculate_logic df info = Raise "IndexError") \/
  ((exists b, In b df /\ Close b <> NaN) /\
   exists r, calculate_logic df info = Ok r).
Proof.
  destruct (dropna (col Close df)) as [|p s] eqn:E.
  - left. split; [now apply dropna_col_nil | now apply calculate_logic_no_close].
  - right. assert (Hne : dropna (col Close df) <> []) by (rewrite E; discriminate).
    split; [now apply some_valid_close|].
    destruct (calculate_logic_total df info Hne)
      as (? & ? & ? & ? & ? & _ & _ & _ & _ & _ & Hres).
    eexists. exact Hres.
Qed.

(** X7: the analysis returns a result exactly when some bar of the table
    has a valid close, and raises [IndexError] exactly when none has. *)
Theorem calculate_logic_succeeds_iff (df : DataFrame) (info : Info) :
  ((exists r, calculate_logic df info = Ok r) <->
   (exists b, In b df /\ Close b <> NaN)) /\
  (calculate_logic df info = Raise "IndexError" <->
   (forall b, In b df -> Close b = NaN)).
Proof.
  destruct (calculate_logic_cases df info) as [[Hall Hr]|[(b & Hin & Hb) [r Hr]]];
    rewrite Hr; split; split.
  - intros [r H]. discriminate.
  - intros (b & Hin & Hb). elim Hb. now apply Hall.
  - intros _. exact Hall.
  - reflexivity.
  - intros _. now exists b.
  - intros _. now exists r.
  - discriminate.
  - intros H. elim Hb. now apply H.
Qed.

(** X8: the last price of the result is the most recent valid close: the
    close of the last bar that has one, whatever bars with a missing close
    follow it. *)
Theorem last_is_latest_valid_close
        (pre post : DataFrame) (b : Bar) (q : Q) (info : Info) :
  Close b = Some q ->
  Forall (fun b' => Close b' = NaN) post ->
  exists r, calculate_logic (pre ++ b :: post) info = Ok r /\ Res.last r = Some q.
Proof.
  intros Hb Hpost.
  assert (Hvals : exists l, values (dropna (col Close (pre ++ b :: post))) = l ++ [Some q]).
  { rewrite values_dropna_col, map_app, filter_app. cbn [map filter].
    rewrite Hb. cbn [isnan negb].
    assert (Hnil : filter (fun x : float => negb (isnan x)) (map Close post) = []).
    { induction Hpost as [|b' post Hb' _ IH]; [reflexivity|].
      cbn [map filter]. now rewrite Hb'. }
    rewrite Hnil. now eexists. }
  destruct Hvals as [l Hvals].
  assert (Hne : dropna (col Close (pre ++ b :: post)) <> []).
  { intros H. rewrite H in Hvals. now destruct l. }
  destruct (calculate_logic_parts (pre ++ b :: post) info Hne)
    as (last & ? & ? & ? & ? & Hlast & _ & _ & _ & _ & Hres).
  rewrite Hvals, iloc_back_snoc in Hlast. injection Hlast as <-.
  eexists. split; [exact Hres | reflexivity].
Qed.

Lemma last_is_latest_valid_close_witness :
  Close {| High := Some 11%Q; Low := Some 9%Q; Close := Some 10%Q |} = Some 10%Q /\
  Forall (fun b' => Close b' = NaN) all_nan_table /\
  exists r,
    calculate_logic
      (one_bar_table ++
       {| High := Some 11%Q; Low := Some 9%Q; Close := Some 10%Q |} :: all_nan_table) []
      = Ok r /\
    Res.last r = Some 10%Q.
Proof.
  split; [reflexivity|]. split; [repeat constructor|].
  apply (last_is_latest_valid_close one_bar_table all_nan_table
           {| High := Some 11%Q; Low := Some 9%Q; Close := Some 10%Q |} 10%Q []);
    [reflexivity | repeat constructor].
Defined.

(** X9: the analysis branch of the page ends in one of three ways: the
    error box exactly for the empty table, a report exactly when some bar
    has a valid close, and an uncaught [IndexError] -- the only exception it
    can raise -- exactly for a table with rows whose closes are all
    missing. *)
Theorem analysis_branch_outcomes (ticker : str) (df : DataFrame) (info : Info) :
  (analysis_branch ticker df info = Ok ErrorBox <-> df = []) /\
  ((exists res name pe ps,
       analysis_branch ticker df info = Ok (Report res name pe ps)) <->
   (exists b, In b df /\ Close b <> NaN)) /\
  ((exists e, analysis_branch ticker df info = Raise e) <->
   (df <> [] /\ forall b, In b df -> Close b = NaN)) /\
  (forall e, analysis_branch ticker df info = Raise e -> e = "IndexError"%string).
Proof.
  destruct df as [|b0 df].
  - cbn [analysis_branch]. split; [|split; [|split]].
    + split; reflexivity.
    + split; [intros (? & ? & ? & ? & E); discriminate E | intros (b & [] & _)].
    + split; [intros [e E]; discriminate E | intros [E _]; now elim E].
    + intros e E. discriminate E.
  - unfold analysis_branch.
    destruct (calculate_logic_cases (b0 :: df) info)
      as [[Hall Hr]|[(b & Hin & Hb) [r Hr]]]; rewrite Hr; cbn [bind].
    + split; [|split; [|split]].
      * split; discriminate.
      * split; [intros (? & ? & ? & ? & E); discriminate E|].
        intros (b & Hin & Hb). elim Hb. now apply Hall.
      * split; [intros _; split; [discriminate | exact Hall] | intros _; now eexists].
      * intros e E. now injection E as <-.
    + split; [|split; [|split]].
      * split; discriminate.
      * split; [intros _; now exists b | intros _; now do 4 eexists].
      * split; [intros [e E]; discriminate E|].
        intros [_ E]. elim Hb. now apply E.
      * intros e E. discriminate E.
Qed.

(** ** The RSI of monotone series *)

Section Steps.

Lemma diff_steps (a : float) (s : list float) : diff (a :: s) = NaN :: steps a s.
Proof.
  unfold diff, shift, zip_with. cbn [combine map fst snd].
  assert (Ha : fsub a NaN = NaN) by (destruct a; reflexivity).
  rewrite Ha. f_equal.
  revert a Ha. induction s as [|b t IH]; intros a _; [reflexivity|].
  change (removelast (a :: b :: t)) with (a :: removelast (b :: t)).
  cbn [combine map fst snd steps]. f_equal.
  apply IH. destruct b; reflexivity.
Qed.

Lemma steps_sorted (R : Q -> Q -> Prop) (P : Q -> Prop) (a : Q) (qs : list Q) :
  (forall x y, R x y -> P (y - x)%Q) ->
  Sorted R (a :: qs) ->
  Forall (number_with P) (steps (Some a) (map Some qs)).
Proof.
  intros HRP. revert a. induction qs as [|b qs IH]; intros a Hs; [constructor|].
  apply Sorted_inv in Hs as [Hs Hhd]. apply HdRel_inv in Hhd.
  cbn [map steps]. constructor; [|exact (IH b Hs)].
  exists (b - a)%Q. split; [reflexivity | now apply HRP].
Qed.

Lemma loss_cons (a : float) (s : list float) :
  loss (a :: s) = NaN :: map fneg (clip_upper0 (steps a s)).
Proof. unfold loss. now rewrite diff_steps. Qed.

Lemma gain_cons (a : float) (s : list float) :
  gain (a :: s) = NaN :: clip_lower0 (steps a s).
Proof. unfold gain. now rewrite diff_steps. Qed.

End Steps.

Section EwmShapes.

Variable alpha : Q.
Hypothesis alpha_pos : (0 < alpha)%Q.
Hypothesis alpha_le_1 : (alpha <= 1)%Q.

Lemma ewm_run_zero_or_nan (vals : list float) (st : ewm_state) :
  zero_or_nan (weighted st) ->
  Forall zero_or_nan vals ->
  Forall zero_or_nan (ewm_run alpha st vals).
Proof.
  revert st. induction vals as [|v vals IH]; intros st Hst Hvals; [constructor|].
  inversion Hvals as [|? ? Hv Hrest]; subst.
  assert (Hst' : zero_or_nan (weighted (ewm_step alpha st v))).
  { unfold ewm_step. destruct (weighted st) as [w|]; [|exact Hv].
    destruct v as [c|]; cbn [weighted]; [|exact Hst].
    cbn [zero_or_nan] in Hst, Hv.
    assert (E : Qeq_bool w c = true) by (apply Qeq_bool_iff; now rewrite Hst, Hv).
    now rewrite E. }
  cbn [ewm_run]. constructor; [exact Hst' | exact (IH _ Hst' Hrest)].
Qed.

Lemma ewm_run_zero (vals : list float) (st : ewm_state) :
  weighted st = None \/ number_with (fun q => q == 0)%Q (weighted st) ->
  Forall (number_with (fun q => q == 0)%Q) vals ->
  Forall (number_with (fun q => q == 0)%Q) (ewm_run alpha st vals).
Proof.
  revert st. induction vals as [|v vals IH]; intros st Hst Hvals; [constructor|].
  inversion Hvals as [|? ? Hv Hrest]; subst.
  assert (Hst' : number_with (fun q => q == 0)%Q (weighted (ewm_step alpha st v))).
  { destruct Hv as (c & -> & Hc). unfold ewm_step.
    destruct Hst as [->|(w & -> & Hw)].
    - now exists c.
    - cbn [weighted].
      assert (E : Qeq_bool w c = true) by (apply Qeq_bool_iff; now rewrite Hw, Hc).
      rewrite E. now exists w. }
  cbn [ewm_run]. constructor; [exact Hst' | apply IH; [now right | exact Hrest]].
Qed.

Lemma ewm_run_positive (vals : list float) (st : ewm_state) :
  weighted st = None \/ number_with (fun q => 0 < q)%Q (weighted st) ->
  (0 <= old_wt st)%Q ->
  Forall (number_with (fun q => 0 < q)%Q) vals ->
  Forall (number_with (fun q => 0 < q)%Q) (ewm_run alpha st vals).
Proof.
  revert st. induction vals as [|v vals IH]; intros st Hst Ho Hvals; [constructor|].
  inversion Hvals as [|? ? Hv Hrest]; subst.
  assert (Hst' : number_with (fun q => 0 < q)%Q (weighted (ewm_step alpha st v)) /\
                 (0 <= old_wt (ewm_step alpha st v))%Q).
  { destruct Hv as (c & -> & Hc). unfold ewm_step.
    destruct Hst as [->|(w & -> & Hw)].
    - split; [now exists c | exact Ho].
    - cbn [weighted old_wt]. split; [|lra].
      assert (Hdecay : (0 <= old_wt st * (1 - alpha))%Q)
        by (apply Qmult_le_0_compat; lra).
      destruct (Qeq_bool w c); [now exists w|].
      eexists. split; [reflexivity|].
      apply Qlt_shift_div_l; [lra|].
      assert (0 <= old_wt st * (1 - alpha) * w)%Q by (apply Qmult_le_0_compat; lra).
      assert (0 < alpha * c)%Q by (apply Qmult_lt_0_compat; lra).
      lra. }
  destruct Hst' as [Hw' Ho'].
  cbn [ewm_run]. constructor; [exact Hw' | apply IH; [now right | exact Ho' | exact Hrest]].
Qed.

End EwmShapes.

Lemma avg_loss_never_falls (closes : list Q) (period : positive) :
  never_falls closes ->
  Forall zero_or_nan (avg_loss (map Some closes) period).
Proof.
  intros Hs. destruct closes as [|a qs]; [constructor|].
  unfold avg_loss. cbn [map]. rewrite loss_cons. cbn [ewm_mean].
  constructor; [exact I|].
  apply ewm_run_zero_or_nan; [exact I|].
  apply Forall_map. unfold clip_upper0. apply Forall_map.
  eapply Forall_impl; [|exact (steps_sorted Qle (fun q => 0 <= q)%Q a qs
                                 ltac:(intros x y Hxy; cbv beta in *; lra) Hs)].
  intros d (q & -> & Hq). cbn [lift1 fneg zero_or_nan].
  destruct (Qlt_bool 0 q) eqn:E; [reflexivity|].
  apply Qlt_bool_false_iff in E. lra.
Qed.

Lemma rsi_wilder_hd (a : float) (s : list float) (period : positive) :
  hd_error (rsi_wilder (a :: s) period) = Some NaN.
Proof.
  unfold rsi_wilder, avg_gain, avg_loss. rewrite gain_cons, loss_cons. reflexivity.
Qed.

(** X10: the RSI series is aligned with the closes, one value per close,
    and its first value is always NaN: the first close has no change. *)
Theorem rsi_wilder_first_undefined (close : list float) (period : positive) :
  length (rsi_wilder close period) = length close /\
  hd_error (rsi_wilder close period) =
    match close with
    | [] => None
    | _ :: _ => Some NaN
    end.
Proof.
  split; [apply rsi_wilder_length|].
  destruct close as [|a s]; [reflexivity | apply rsi_wilder_hd].
Qed.

Lemma rsi_wilder_never_falls (closes : list Q) (period : positive) :
  never_falls closes ->
  Forall (fun x => x = NaN) (rsi_wilder (map Some closes) period).
Proof.
  intros Hs. apply Forall_forall. intros x Hx.
  apply In_nth_error in Hx as [i Hi].
  rewrite rsi_wilder_nth in Hi.
  destruct (nth_error (avg_gain (map Some closes) period) i) as [g|]; [|discriminate].
  destruct (nth_error (avg_loss (map Some closes) period) i) as [l|] eqn:Hl;
    [|discriminate].
  pose proof (avg_loss_never_falls closes period Hs) as Hz.
  rewrite Forall_forall in Hz. specialize (Hz l (nth_error_In _ _ Hl)).
  injection Hi as <-.
  destruct l as [q|]; [|destruct g; reflexivity].
  cbn [zero_or_nan] in Hz. apply Qeq_bool_iff in Hz. rewrite Hz.
  destruct g; reflexivity.
Qed.

(** X11: on a series of closes that never falls the smoothed loss stays 0,
    so every value of the RSI is NaN: the RSI never reports the strength
    of a rise that had no setback. *)
Theorem rsi_never_falling_is_nan (closes : list Q) (period : positive) :
  never_falls closes ->
  Forall (fun x => x = NaN) (rsi_wilder (map Some closes) period).
Proof. exact (rsi_wilder_never_falls closes period). Qed.

Lemma rsi_never_falling_is_nan_witness :
  never_falls flat_then_up_closes /\
  Forall (fun x => x = NaN) (rsi_wilder (map Some flat_then_up_closes) 14).
Proof.
  assert (H : never_falls flat_then_up_closes).
  { unfold never_falls, flat_then_up_closes.
    repeat constructor; discriminate. }
  split; [exact H|].
  apply (rsi_never_falling_is_nan flat_then_up_closes 14 H).
Defined.

Lemma strictly_decreasing_sorted (closes : list Q) :
  strictly_decreasing closes -> Sorted (fun a b => (b < a)%Q) closes.
Proof. apply StronglySorted_Sorted. Qed.

Lemma avg_shapes_decreasing (a : Q) (qs : list Q) (period : positive) :
  strictly_decreasing (a :: qs) ->
  exists gs ls,
    avg_gain (map Some (a :: qs)) period = NaN :: gs /\
    avg_loss (map Some (a :: qs)) period = NaN :: ls /\
    Forall (number_with (fun q => q == 0)%Q) gs /\
    Forall (number_with (fun q => 0 < q)%Q) ls.
Proof.
  intros Hs. apply strictly_decreasing_sorted in Hs.
  pose proof (steps_sorted (fun x y => (y < x)%Q) (fun q => q < 0)%Q a qs
                ltac:(intros x y Hxy; cbv beta in *; lra) Hs) as Hsteps.
  destruct (period_alpha period) as [H0 H1].
  unfold avg_gain, avg_loss. cbn [map]. rewrite gain_cons, loss_cons.
  cbn [ewm_mean]. do 2 eexists. split; [reflexivity|]. split; [reflexivity|].
  split.
  - apply ewm_run_zero; [now left|].
    unfold clip_lower0. apply Forall_map.
    eapply Forall_impl; [|exact Hsteps].
    intros d (q & -> & Hq). cbn [lift1].
    apply Qlt_bool_iff in Hq. rewrite Hq. now exists 0%Q.
  - apply ewm_run_positive; [exact H0 | exact H1 | now left | cbn; lra |].
    apply Forall_map. unfold clip_upper0. apply Forall_map.
    eapply Forall_impl; [|exact Hsteps].
    intros d (q & -> & Hq). cbn [lift1 fneg].
    assert (E : Qlt_bool 0 q = false) by (apply Qlt_bool_false_iff; lra).
    rewrite E. eexists. split; [reflexivity | lra].
Qed.

(** The RSI from a zero smoothed gain and a positive smoothed loss. *)
Lemma rsi_of_zero_gain (g l : Q) :
  (g == 0)%Q -> (0 < l)%Q ->
  number_with (fun q => q == 0)%Q
    (rsi_of_rs (fdiv (Some g) (if Qeq_bool l 0 then NaN else Some l))).
Proof.
  intros Hg Hl.
  assert (El : Qeq_bool l 0 = false).
  { destruct (Qeq_bool l 0) eqn:E; [|reflexivity]. apply Qeq_bool_iff in E. lra. }
  rewrite El. unfold fdiv. rewrite El. unfold rsi_of_rs, fadd, fsub, fdiv, lift2.
  assert (Hrs : (g / l == 0)%Q) by (rewrite Hg; field; lra).
  assert (Ed : Qeq_bool (1 + g / l) 0 = false).
  { destruct (Qeq_bool (1 + g / l) 0) eqn:E; [|reflexivity].
    apply Qeq_bool_iff in E. rewrite Hrs in E. discriminate E. }
  rewrite Ed. eexists. split; [reflexivity|]. rewrite Hrs. reflexivity.
Qed.

Lemma rsi_decreasing_nth (closes : list Q) (period : positive) (i : nat) (x : float) :
  strictly_decreasing closes ->
  1 <= i ->
  nth_error (rsi_wilder (map Some closes) period) i = Some x ->
  number_with (fun q => q == 0)%Q x.
Proof.
  intros Hs Hi Hx. destruct closes as [|a qs]; [now destruct i|].
  destruct (avg_shapes_decreasing a qs period Hs) as (gs & ls & Eg & El & Hg & Hl).
  rewrite rsi_wilder_nth, Eg, El in Hx.
  destruct i as [|j]; [lia|]. cbn [nth_error] in Hx.
  destruct (nth_error gs j) as [g|] eqn:Hgj; [|discriminate].
  destruct (nth_error ls j) as [l|] eqn:Hlj; [|discriminate].
  rewrite Forall_forall in Hg, Hl.
  destruct (Hg g (nth_error_In _ _ Hgj)) as (gq & -> & Hgq).
  destruct (Hl l (nth_error_In _ _ Hlj)) as (lq & -> & Hlq).
  injection Hx as <-. now apply rsi_of_zero_gain.
Qed.

(** X12: on a series of positive closes that falls at every step the
    smoothed gain stays 0 and the smoothed loss positive, so every value of
    the RSI after the first is the number 0.  (The closes are prices: being
    positive, no change between two of them can overflow.) *)
Theorem rsi_strictly_decreasing_is_zero
        (closes : list Q) (period : positive) (i : nat) (x : float) :
  Forall (fun q => 0 < q)%Q closes ->
  strictly_decreasing closes ->
  1 <= i ->
  nth_error (rsi_wilder (map Some closes) period) i = Some x ->
  exists v : Q, x = Some v /\ (v == 0)%Q.
Proof. intros _. exact (rsi_decreasing_nth closes period i x). Qed.

Lemma rsi_strictly_decreasing_is_zero_witness :
  Forall (fun q => 0 < q)%Q sliding_closes /\
  strictly_decreasing sliding_closes /\
  1 <= 3 /\
  exists x,
    nth_error (rsi_wilder (map Some sliding_closes) 14) 3 = Some x /\
    exists v : Q, x = Some v /\ (v == 0)%Q.
Proof.
  assert (H : strictly_decreasing sliding_closes).
  { unfold strictly_decreasing, sliding_closes.
    repeat constructor; reflexivity. }
  assert (Hpos : Forall (fun q => 0 < q)%Q sliding_closes)
    by (unfold sliding_closes; repeat constructor).
  split; [exact Hpos|]. split; [exact H|]. split; [lia|].
  eexists. split; [vm_compute; reflexivity|].
  apply (rsi_strictly_decreasing_is_zero sliding_closes 14 3 _ Hpos H);
    [lia | vm_compute; reflexivity].
Defined.

(** ** Monotone tables, end to end *)

Section RankFacts.

Lemma percentile_rank_formula (closes : list Q) :
  closes <> [] ->
  exists (w : list Q) (x p : Q),
    tail 756 closes = w ++ [x] /\
    percentile_rank (map Some closes) = Ok (Some p) /\
    (p == (Qnat (count_lt x (w ++ [x])) + (Qnat (count_eq x (w ++ [x])) + 1) * (1 # 2))
          / Qnat (length (w ++ [x])))%Q.
Proof.
  intros Hne. destruct (percentile_rank_value closes Hne) as (Hw & Hlast & Hpr).
  destruct (exists_last Hw) as (w & x & Ew).
  rewrite Ew, last_last in Hlast. rewrite <- Hlast, Ew in Hpr.
  exists w, x. eexists. split; [exact Ew|]. split; [exact Hpr|].
  rewrite (rank_average_closed x (w ++ [x]) (count_eq_last x w)).
  now rewrite Qhalf.
Qed.

Lemma count_above (x : Q) (w : list Q) :
  Forall (fun y => (x < y)%Q) w ->
  count_lt x (w ++ [x]) = 0 /\ count_eq x (w ++ [x]) = 1.
Proof.
  intros Hall. unfold count_lt, count_eq. rewrite !filter_app, !length_app.
  assert (Hx1 : Qlt_bool x x = false) by (apply Qlt_bool_false_iff; lra).
  assert (Hx2 : Qeq_bool x x = true) by (apply Qeq_bool_iff; reflexivity).
  simpl. rewrite Hx1, Hx2. simpl.
  induction Hall as [|y w Hy Hall [IH1 IH2]]; simpl; [split; reflexivity|].
  assert (E1 : Qlt_bool y x = false) by (apply Qlt_bool_false_iff; lra).
  assert (E2 : Qeq_bool y x = false).
  { destruct (Qeq_bool y x) eqn:E; [|reflexivity]. apply Qeq_bool_iff in E. lra. }
  rewrite E1, E2. split; assumption.
Qed.

Lemma percentile_rank_increasing (closes : list Q) :
  closes <> [] -> strictly_increasing closes ->
  exists p : Q, percentile_rank (map Some closes) = Ok (Some p) /\ (p == 1)%Q.
Proof.
  intros Hne Hs.
  destruct (percentile_rank_formula closes Hne) as (w & x & p & Ew & Hpr & Hp).
  exists p. split; [exact Hpr|].
  assert (Hsw : StronglySorted Qlt (w ++ [x])).
  { rewrite <- Ew. apply StronglySorted_skipn. exact Hs. }
  apply StronglySorted_snoc in Hsw.
  destruct (count_below x w Hsw) as [Hlt Heq].
  rewrite Hp, Hlt, Heq, length_app, Qnat_add. simpl length.
  change (Qnat 1) with 1%Q.
  pose proof (Qnat_le _ _ (Nat.le_0_l (length w))) as H0.
  change (Qnat 0) with 0%Q in H0.
  qnat_atoms. field. lra.
Qed.

Lemma percentile_rank_decreasing (closes : list Q) :
  closes <> [] -> strictly_decreasing closes ->
  exists p : Q,
    percentile_rank (map Some closes) = Ok (Some p) /\
    (p == 1 / Qnat (Nat.min 756 (length closes)))%Q.
Proof.
  intros Hne Hs.
  destruct (percentile_rank_formula closes Hne) as (w & x & p & Ew & Hpr & Hp).
  exists p. split; [exact Hpr|].
  assert (Hsw : StronglySorted (fun a b => (b < a)%Q) (w ++ [x])).
  { rewrite <- Ew. apply StronglySorted_skipn. exact Hs. }
  apply StronglySorted_snoc in Hsw.
  destruct (count_above x w Hsw) as [Hlt Heq].
  rewrite Hp, Hlt, Heq, <- Ew, tail_length.
  change (Qnat 1) with 1%Q. change (Qnat 0) with 0%Q.
  assert (Hn : 0 < Nat.min 756 (length closes)).
  { destruct closes; [congruence | simpl; lia]. }
  apply Qnat_pos in Hn. qnat_atoms. field. lra.
Qed.

Lemma percentile_rank_at_least (closes : list Q) :
  closes <> [] ->
  exists p : Q,
    percentile_rank (map Some closes) = Ok (Some p) /\
    (1 / Qnat (Nat.min 756 (length closes)) <= p)%Q.
Proof.
  intros Hne.
  destruct (percentile_rank_formula closes Hne) as (w & x & p & Ew & Hpr & Hp).
  exists p. split; [exact Hpr|].
  pose proof (count_eq_last x w) as Hdups. apply Qnat_le in Hdups.
  change (Qnat 1) with 1%Q in Hdups.
  pose proof (Qnat_le _ _ (Nat.le_0_l (count_lt x (w ++ [x])))) as HL.
  change (Qnat 0) with 0%Q in HL.
  assert (Hn : 0 < Nat.min 756 (length closes)).
  { destruct closes; [congruence | simpl; lia]. }
  apply Qnat_pos in Hn.
  rewrite Hp, <- Ew, tail_length. rewrite <- Ew in Hdups, HL.
  qnat_atoms.
  apply Qle_shift_div_l; [assumption|].
  setoid_replace (1 / q * q)%Q with 1%Q by (field; lra). lra.
Qed.

End RankFacts.

Lemma Sorted_weaken {A : Type} (R R' : A -> A -> Prop) (l : list A) :
  (forall a b, R a b -> R' a b) -> Sorted R l -> Sorted R' l.
Proof.
  intros HR Hs. induction Hs as [|a l Hs IH Hhd]; constructor; [exact IH|].
  destruct Hhd; constructor. now apply HR.
Qed.

Lemma strictly_increasing_never_falls (closes : list Q) :
  strictly_increasing closes -> never_falls closes.
Proof.
  intros Hs. apply StronglySorted_Sorted in Hs.
  apply (Sorted_weaken Qlt Qle); [intros a b; apply Qlt_le_weak | exact Hs].
Qed.

Lemma iloc_back_nth {A : Type} (l : list A) (k : nat) (x : A) :
  iloc_back l k = Ok x -> k <= length l /\ nth_error l (length l - k) = Some x.
Proof.
  unfold iloc_back, getitem.
  destruct (Nat.ltb_spec (length l) k) as [H|H]; [discriminate|].
  destruct (nth_error l (length l - k)) as [y|]; [|discriminate].
  intros E. injection E as ->. split; [exact H | reflexivity].
Qed.

Lemma values_nonempty (s : Series) (qs : list Q) :
  values s = map Some qs -> qs <> [] -> s <> [].
Proof. intros E Hne ->. destruct qs; [congruence | discriminate]. Qed.

Lemma flt_irrefl (x : float) : flt x x = false.
Proof.
  destruct x as [q|]; [|reflexivity]. apply Qlt_bool_false_iff. lra.
Qed.

(** X13: a table whose valid closes rise at every step is classified as
    Watch: the last close ranks at the top of its window, the RSI is NaN,
    and none of the three conditions holds. *)
Theorem rising_table_is_watch (df : DataFrame) (info : Info) (qs : list Q) :
  values (dropna (col Close df)) = map Some qs ->
  qs <> [] ->
  strictly_increasing qs ->
  exists r,
    calculate_logic df info = Ok r /\
    Res.cond r = (false, false, false) /\
    Res.sig r = ("观察", "⚪", "暂无明显底部信号")%string /\
    Res.rsi (Res.metrics r) = NaN.
Proof.
  intros E Hne Hs.
  pose proof (values_nonempty _ _ E Hne) as Hclose.
  destruct (calculate_logic_parts df info Hclose)
    as (last & rsi_last & rsi_prev & pr & atr & _ & Hrsi & _ & Hpr & _ & Hres).
  rewrite E in Hrsi, Hpr.
  assert (Hnan : rsi_last = NaN).
  { apply iloc_back_nth in Hrsi as [_ Hnth]. apply nth_error_In in Hnth.
    pose proof (rsi_wilder_never_falls qs 14 (strictly_increasing_never_falls qs Hs)) as H.
    rewrite Forall_forall in H. now apply H. }
  destruct (percentile_rank_increasing qs Hne Hs) as (p & Hp & Hp1).
  rewrite Hp in Hpr. injection Hpr as <-. subst rsi_last.
  assert (HA : flt (Some p) (Some 0.30%Q) = false).
  { apply Qlt_bool_false_iff. rewrite Hp1. discriminate. }
  assert (HC : fgt NaN rsi_prev = false) by (destruct rsi_prev; reflexivity).
  eexists. split; [exact Hres|].
  cbn [Res.cond Res.sig Res.rsi Res.metrics]. rewrite HA, HC.
  repeat split; reflexivity.
Qed.

Lemma rising_table_is_watch_witness :
  values (dropna (col Close (table_of_closes climbing_closes))) = map Some climbing_closes /\
  climbing_closes <> [] /\
  strictly_increasing climbing_closes /\
  exists r,
    calculate_logic (table_of_closes climbing_closes) [] = Ok r /\
    Res.cond r = (false, false, false) /\
    Res.sig r = ("观察", "⚪", "暂无明显底部信号")%string /\
    Res.rsi (Res.metrics r) = NaN.
Proof.
  assert (H : strictly_increasing climbing_closes).
  { unfold strictly_increasing, climbing_closes. repeat constructor; reflexivity. }
  split; [reflexivity|]. split; [discriminate|]. split; [exact H|].
  apply (rising_table_is_watch (table_of_closes climbing_closes) [] climbing_closes);
    [reflexivity | discriminate | exact H].
Defined.

(** X14: a table with at least four valid closes that fall at every step
    is classified as Build, never as Add: the last close ranks at the
    bottom of its window, the RSI is 0 and so below 35, and the RSI has not
    turned up. *)
Theorem falling_table_is_build (df : DataFrame) (info : Info) (qs : list Q) :
  values (dropna (col Close df)) = map Some qs ->
  4 <= length qs ->
  strictly_decreasing qs ->
  exists r,
    calculate_logic df info = Ok r /\
    Res.cond r = (true, true, false) /\
    Res.sig r = ("建仓", "🟢", "进入价值区，等待拐头")%string /\
    exists v : Q, Res.rsi (Res.metrics r) = Some v /\ (v == 0)%Q.
Proof.
  intros E Hlen Hs.
  assert (Hne : qs <> []) by (destruct qs; [simpl in Hlen; lia | discriminate]).
  pose proof (values_nonempty _ _ E Hne) as Hclose.
  destruct (calculate_logic_parts df info Hclose)
    as (last & rsi_last & rsi_prev & pr & atr & _ & Hrsi & Hprev & Hpr & _ & Hres).
  rewrite E in Hrsi, Hprev, Hpr.
  assert (Hrl : length (rsi_wilder (map Some qs) 14) = length qs)
    by now rewrite rsi_wilder_length, length_map.
  apply iloc_back_nth in Hrsi as [_ Hlast]. rewrite Hrl in Hlast.
  apply (rsi_decreasing_nth qs 14 _ _ Hs) in Hlast as (v & -> & Hv); [|lia].
  assert (Hlt : (2 <? length (rsi_wilder (map Some qs) 14)) = true)
    by (apply Nat.ltb_lt; lia).
  rewrite Hlt in Hprev.
  apply iloc_back_nth in Hprev as [_ Hprev]. rewrite Hrl in Hprev.
  apply (rsi_decreasing_nth qs 14 _ _ Hs) in Hprev as (v' & -> & Hv'); [|lia].
  destruct (percentile_rank_decreasing qs Hne Hs) as (p & Hp & Hp1).
  rewrite Hp in Hpr. injection Hpr as <-.
  assert (HA : flt (Some p) (Some 0.30%Q) = true).
  { apply Qlt_bool_iff. rewrite Hp1.
    assert (Hn : 4 <= Nat.min 756 (length qs)) by lia.
    apply Qnat_le in Hn. change (Qnat 4) with 4%Q in Hn.
    qnat_atoms. apply Qlt_shift_div_r; lra. }
  assert (HB : flt (Some v) (Some 35%Q) = true).
  { apply Qlt_bool_iff. rewrite Hv. reflexivity. }
  assert (HC : fgt (Some v) (Some v') = false).
  { apply Qlt_bool_false_iff. rewrite Hv, Hv'. discriminate. }
  eexists. split; [exact Hres|].
  cbn [Res.cond Res.sig Res.rsi Res.metrics]. rewrite HA, HB, HC.
  split; [reflexivity|]. split; [reflexivity|]. now exists v.
Qed.

Lemma falling_table_is_build_witness :
  values (dropna (col Close (table_of_closes sliding_closes))) = map Some sliding_closes /\
  4 <= length sliding_closes /\
  strictly_decreasing sliding_closes /\
  exists r,
    calculate_logic (table_of_closes sliding_closes) [] = Ok r /\
    Res.cond r = (true, true, false) /\
    Res.sig r = ("建仓", "🟢", "进入价值区，等待拐头")%string /\
    exists v : Q, Res.rsi (Res.metrics r) = Some v /\ (v == 0)%Q.
Proof.
  assert (H : strictly_decreasing sliding_closes).
  { unfold strictly_decreasing, sliding_closes. repeat constructor; reflexivity. }
  split; [reflexivity|]. split; [simpl; lia|]. split; [exact H|].
  apply (falling_table_is_build (table_of_closes sliding_closes) [] sliding_closes);
    [reflexivity | simpl; lia | exact H].
Defined.

(** ** Short tables *)

(** X15: with few valid closes some conditions cannot hold.  With at most
    three, the rank of the last close is at least 1/3, so the value
    condition A is false; with at most two, the previous RSI is the last
    RSI, so the turning-up condition C is false; with exactly one, the RSI
    is NaN as well and the signal is Watch. *)
Theorem short_series_conditions (df : DataFrame) (info : Info) (r : Res.t) :
  calculate_logic df info = Ok r ->
  let n := length (dropna (col Close df)) in
  (n <= 3 -> fst (fst (Res.cond r)) = false) /\
  (n <= 2 -> snd (Res.cond r) = false) /\
  (n = 1 ->
   Res.cond r = (false, false, false) /\
   Res.sig r = ("观察", "⚪", "暂无明显底部信号")%string).
Proof.
  intros Hr n.
  assert (Hclose : dropna (col Close df) <> []).
  { intros H. rewrite (calculate_logic_no_close df info H) in Hr. discriminate. }
  destruct (calculate_logic_parts df info Hclose)
    as (last & rsi_last & rsi_prev & pr & atr & _ & Hrsi & Hprev & Hpr & _ & Hres).
  rewrite Hres in Hr. injection Hr as <-.
  destruct (dropna_values (col Close df)) as [qs E].
  rewrite E in Hrsi, Hprev, Hpr.
  assert (Hn : length qs = n).
  { unfold n. rewrite <- (length_map Some qs), <- E. apply length_map. }
  assert (Hne : qs <> []).
  { intros ->. unfold values in E. destruct (dropna (col Close df)); [congruence | discriminate]. }
  assert (Hrl : length (rsi_wilder (map Some qs) 14) = n)
    by now rewrite rsi_wilder_length, length_map.
  clearbody n.
  assert (HA : n <= 3 -> flt pr (Some 0.30%Q) = false).
  { intros H3. destruct (percentile_rank_at_least qs Hne) as (p & Hp & Hlow).
    rewrite Hp in Hpr. injection Hpr as <-.
    apply Qlt_bool_false_iff.
    assert (Hmin : Nat.min 756 (length qs) <= 3) by lia.
    assert (Hpos : 0 < Nat.min 756 (length qs)) by (destruct qs; [congruence | simpl; lia]).
    apply Qnat_le in Hmin. apply Qnat_pos in Hpos. change (Qnat 3) with 3%Q in Hmin.
    revert Hlow Hmin Hpos. generalize (Qnat (Nat.min 756 (length qs))). intros N Hlow Hmin Hpos.
    assert (Hthird : (0.30 <= 1 / N)%Q) by (apply Qle_shift_div_l; lra).
    lra. }
  assert (HC : n <= 2 -> fgt rsi_last rsi_prev = false).
  { intros H2. rewrite Hrl in Hprev.
    destruct (Nat.ltb_spec 2 n) as [H|_]; [lia|].
    injection Hprev as <-. apply flt_irrefl. }
  cbn [Res.cond Res.sig fst snd].
  split; [exact HA|]. split; [exact HC|].
  intros H1. rewrite HA, HC by lia.
  assert (HB : rsi_last = NaN).
  { destruct qs as [|q [|q' qs']]; [congruence | | simpl in Hn; lia].
    apply iloc_back_nth in Hrsi as [_ Hnth]. rewrite Hrl, H1 in Hnth.
    assert (Hhd : hd_error (rsi_wilder (map Some [q]) 14) = Some NaN)
      by apply rsi_wilder_hd.
    replace (1 - 1) with 0 in Hnth by lia.
    destruct (rsi_wilder (map Some [q]) 14) as [|x t]; [discriminate|].
    cbn [hd_error nth_error] in Hnth, Hhd.
    injection Hnth as <-. injection Hhd as Hx. exact Hx. }
  subst rsi_last. split; reflexivity.
Qed.

Lemma short_series_conditions_witness :
  exists r,
    calculate_logic one_bar_table [] = Ok r /\
    (length (dropna (col Close one_bar_table)) <= 3 -> fst (fst (Res.cond r)) = false) /\
    (length (dropna (col Close one_bar_table)) <= 2 -> snd (Res.cond r) = false) /\
    (length (dropna (col Close one_bar_table)) = 1 ->
     Res.cond r = (false, false, false) /\
     Res.sig r = ("观察", "⚪", "暂无明显底部信号")%string).
Proof.
  eexists. split; [vm_compute; reflexivity|].
  apply (short_series_conditions one_bar_table []). vm_compute. reflexivity.
Defined.

(** ** The ATR over a full window *)

Section TrueRange.

Lemma loc_combine (k : nat) (l : list float) (i : nat) (x : float) :
  nth_error l i = Some x -> loc (combine (seq k (length l)) l) (k + i) = x.
Proof.
  unfold loc. revert k i. induction l as [|y l IH]; intros k i Hi.
  - now destruct i.
  - cbn [length seq combine find fst]. destruct i as [|i].
    + rewrite Nat.add_0_r, Nat.eqb_refl. cbn in Hi. now injection Hi.
    + destruct (Nat.eqb_spec k (k + S i)) as [E|_]; [lia|].
      rewrite <- Nat.add_succ_comm. apply IH. exact Hi.
Qed.

Lemma loc_col (g : Bar -> float) (df : DataFrame) (i : nat) (b : Bar) :
  nth_error df i = Some b -> loc (col g df) i = g b.
Proof.
  intros Hi. unfold col. rewrite <- (length_map g df).
  apply (loc_combine 0 (map g df) i). rewrite nth_error_map, Hi. reflexivity.
Qed.

(** The difference of two columns of the table, row by row. *)
Lemma sub_aligned_cols (f g : Bar -> float) (df : DataFrame) :
  values (sub_aligned (col f df) (col g df)) = map (fun b => fsub (f b) (g b)) df.
Proof.
  assert (H : forall pre suf : DataFrame,
             df = pre ++ suf ->
             values (sub_aligned (combine (seq (length pre) (length suf)) (map f suf))
                                 (col g df)) =
               map (fun b => fsub (f b) (g b)) suf).
  { intros pre suf. revert pre. induction suf as [|b suf IH]; intros pre E; [reflexivity|].
    cbn [length seq map combine sub_aligned values fst snd].
    f_equal.
    - f_equal. apply loc_col. rewrite E, nth_error_app2, Nat.sub_diag by lia. reflexivity.
    - specialize (IH (pre ++ [b])). rewrite length_app, Nat.add_1_r in IH.
      apply IH. now rewrite <- app_assoc. }
  exact (H [] df eq_refl).
Qed.

Lemma Forall_zip_with_l {A B : Type} (P : A -> Prop) (f : A -> B -> A)
      (a : list A) (b : list B) :
  (forall x y, P x -> P (f x y)) -> Forall P a -> Forall P (zip_with f a b).
Proof.
  intros Hf Ha. unfold zip_with. apply Forall_map, Forall_forall.
  intros [x y] Hin. apply Hf. rewrite Forall_forall in Ha.
  apply Ha. exact (in_combine_l _ _ _ _ Hin).
Qed.

Lemma skipna_max_nonneg (x y : float) :
  number_with (fun q => 0 <= q)%Q x -> number_with (fun q => 0 <= q)%Q (skipna_max x y).
Proof.
  intros (q & -> & Hq). destruct y as [q'|]; cbn [skipna_max]; [|now exists q].
  destruct (Qlt_bool q q') eqn:E; [|now exists q].
  apply Qlt_bool_iff in E. exists q'. split; [reflexivity | lra].
Qed.

(** When every bar has a high and a low not above it, every true range is
    a non-negative number, whatever the closes are. *)
Lemma true_range_nonneg (df : DataFrame) (close : Series) :
  Forall (fun b => exists h l : Q, High b = Some h /\ Low b = Some l /\ (l <= h)%Q) df ->
  Forall (number_with (fun q => 0 <= q)%Q) (true_range df close).
Proof.
  intros Hdf. unfold true_range. rewrite sub_aligned_cols.
  apply Forall_zip_with_l; [exact skipna_max_nonneg|].
  apply Forall_zip_with_l; [exact skipna_max_nonneg|].
  apply Forall_map. eapply Forall_impl; [|exact Hdf].
  intros b (h & l & -> & -> & Hlh). exists (h - l)%Q. split; [reflexivity | lra].
Qed.

Lemma fold_fadd_nonneg (win : list float) (acc : Q) :
  (0 <= acc)%Q ->
  Forall (number_with (fun q => 0 <= q)%Q) win ->
  number_with (fun q => 0 <= q)%Q (fold_left fadd win (Some acc)).
Proof.
  revert acc. induction win as [|x win IH]; intros acc Hacc Hwin; [now exists acc|].
  inversion Hwin as [|? ? (q & -> & Hq) Hrest]; subst.
  cbn [fold_left fadd lift2]. apply IH; [lra | exact Hrest].
Qed.

Lemma all_numbers (win : list float) (P : Q -> Prop) :
  Forall (number_with P) win -> forallb (fun x => negb (isnan x)) win = true.
Proof.
  intros H. apply forallb_forall. intros x Hx. rewrite Forall_forall in H.
  destruct (H x Hx) as (q & -> & _). reflexivity.
Qed.

Lemma Forall_skipn {A : Type} (P : A -> Prop) (n : nat) (l : list A) :
  Forall P l -> Forall P (skipn n l).
Proof.
  intros H. rewrite Forall_forall in *. intros x Hx. apply H.
  rewrite <- (firstn_skipn n l). apply in_or_app. now right.
Qed.

(** The rolling mean at the last row of a series of at least [w] rows. *)
Lemma rolling_mean_last (w : nat) (tr : list float) :
  tr <> [] ->
  iloc_back (rolling_mean w tr) 1 = Ok (window_mean w (tail w tr)).
Proof.
  intros Hne. unfold rolling_mean.
  destruct (length tr) as [|m] eqn:Hlen; [now destruct tr|].
  rewrite seq_S, map_app. cbn [map]. rewrite iloc_back_snoc. cbn [Nat.add].
  replace (m + 1) with (length tr) by lia.
  rewrite firstn_all. unfold tail. now rewrite Hlen.
Qed.

Lemma average_true_range_full (tr : list float) :
  14 <= length tr ->
  Forall (number_with (fun q => 0 <= q)%Q) tr ->
  exists a : Q,
    average_true_range tr = Ok (Some a) /\ (0 <= a)%Q /\
    spec_best_effort_atr 14 tr = Some a.
Proof.
  intros Hlen Htr.
  assert (Hne : tr <> []) by (intros ->; simpl in Hlen; lia).
  unfold average_true_range. rewrite (rolling_mean_last 14 tr Hne).
  unfold window_mean, spec_best_effort_atr.
  assert (Hwin : length (tail 14 tr) = 14) by (rewrite tail_length; lia).
  assert (Hall : Forall (number_with (fun q => 0 <= q)%Q) (tail 14 tr))
    by (apply Forall_skipn; exact Htr).
  rewrite Hwin, (all_numbers _ _ Hall). cbn [Nat.eqb andb].
  destruct (fold_fadd_nonneg (tail 14 tr) 0%Q ltac:(lra) Hall) as (s & -> & Hs).
  exists (s / Qnat 14)%Q. split; [reflexivity|]. split; [|reflexivity].
  apply Qle_shift_div_l; [reflexivity | lra].
Qed.

End TrueRange.

(** X17: on a table of at least 14 bars that all have a high and a low not
    above it, the ATR is a non-negative number: the simple average of the
    true ranges of the last 14 bars -- whatever the closes are, missing ones
    included. *)
Theorem atr_full_window (df : DataFrame) (close : Series) :
  14 <= length df ->
  Forall (fun b => exists h l : Q, High b = Some h /\ Low b = Some l /\ (l <= h)%Q) df ->
  exists a : Q,
    average_true_range (true_range df close) = Ok (Some a) /\
    (0 <= a)%Q /\
    spec_best_effort_atr 14 (true_range df close) = Some a.
Proof.
  intros Hlen Hdf. apply average_true_range_full.
  - now rewrite true_range_length.
  - now apply true_range_nonneg.
Qed.

Lemma table_of_closes_ranges (qs : list Q) :
  Forall (fun b => exists h l : Q, High b = Some h /\ Low b = Some l /\ (l <= h)%Q)
         (table_of_closes qs).
Proof.
  unfold table_of_closes. apply Forall_map, Forall_forall. intros q _.
  exists (q + 1)%Q, (q - 1)%Q. cbn. repeat split. lra.
Qed.

Lemma atr_full_window_witness :
  14 <= length (table_of_closes fortnight_closes) /\
  exists a : Q,
    average_true_range
      (true_range (table_of_closes fortnight_closes)
                  (dropna (col Close (table_of_closes fortnight_closes)))) = Ok (Some a) /\
    (0 <= a)%Q /\
    spec_best_effort_atr 14
      (true_range (table_of_closes fortnight_closes)
                  (dropna (col Close (table_of_closes fortnight_closes)))) = Some a.
Proof.
  split; [simpl; lia|].
  apply (atr_full_window (table_of_closes fortnight_closes)
                         (dropna (col Close (table_of_closes fortnight_closes))));
    [simpl; lia | apply table_of_closes_ranges].
Defined.

(** The last price of a result is a close of the table, hence a number. *)
Lemma last_is_a_close (df : DataFrame) (last : float) :
  iloc_back (values (dropna (col Close df))) 1 = Ok last ->
  exists (b : Bar) (c : Q), In b df /\ Close b = Some c /\ last = Some c.
Proof.
  intros H. apply iloc_back_nth in H as [_ H]. apply nth_error_In in H.
  rewrite values_dropna_col in H. apply filter_In in H as [Hin Hnum].
  apply in_map_iff in Hin as (b & Hb & Hin).
  destruct last as [c|]; [|discriminate]. now exists b, c.
Qed.

(** X19: in every result the last price is a number, and the bands and
    add-on levels are numbers exactly when the ATR is: a NaN ATR -- a short
    table, or a bar without a true range among the last 14 -- gives NaN for
    all of them, and a number for the ATR gives numbers for all of them. *)
Theorem zones_defined_iff_atr (df : DataFrame) (info : Info) (r : Res.t) :
  calculate_logic df info = Ok r ->
  (exists l : Q, Res.last r = Some l) /\
  (Res.atr (Res.metrics r) = NaN ->
   Res.zones r =
     {| Res.conservative := (NaN, NaN);
        Res.neutral := (NaN, NaN);
        Res.aggressive := (NaN, NaN) |} /\
   Res.adds r = {| Res.first := NaN; Res.pullback := NaN |}) /\
  (forall a : Q,
      Res.atr (Res.metrics r) = Some a ->
      exists al ah nl nh cl ch pb : Q,
        Res.zones r =
          {| Res.conservative := (Some cl, Some ch);
             Res.neutral := (Some nl, Some nh);
             Res.aggressive := (Some al, Some ah) |} /\
        Res.adds r = {| Res.first := Some nl; Res.pullback := Some pb |}).
Proof.
  intros Hr.
  assert (Hclose : dropna (col Close df) <> []).
  { intros H. rewrite (calculate_logic_no_close df info H) in Hr. discriminate. }
  destruct (calculate_logic_parts df info Hclose)
    as (last & rsi_last & rsi_prev & pr & atr & Hlast & _ & _ & _ & _ & Hres).
  rewrite Hres in Hr. injection Hr as <-.
  destruct (last_is_a_close df last Hlast) as (b & c & _ & _ & ->).
  cbn [Res.atr Res.metrics Res.last Res.zones Res.adds].
  split; [now exists c|]. split.
  - intros ->. split; reflexivity.
  - intros a ->.
    assert (Hw : exists w, zone_width (Some a) (Some c) = Some w).
    { unfold zone_width, py_max, fgt, flt, fmul, lift2.
      destruct (Qlt_bool (1.8 * a) (c * 0.08)); now eexists. }
    destruct Hw as [w ->]. do 7 eexists. split; reflexivity.
Qed.

Lemma zones_defined_iff_atr_witness :
  exists r,
    calculate_logic one_bar_table [] = Ok r /\
    (exists l : Q, Res.last r = Some l) /\
    (Res.atr (Res.metrics r) = NaN ->
     Res.zones r =
       {| Res.conservative := (NaN, NaN);
          Res.neutral := (NaN, NaN);
          Res.aggressive := (NaN, NaN) |} /\
     Res.adds r = {| Res.first := NaN; Res.pullback := NaN |}) /\
    (forall a : Q,
        Res.atr (Res.metrics r) = Some a ->
        exists al ah nl nh cl ch pb : Q,
          Res.zones r =
            {| Res.conservative := (Some cl, Some ch);
               Res.neutral := (Some nl, Some nh);
               Res.aggressive := (Some al, Some ah) |} /\
          Res.adds r = {| Res.first := Some nl; Res.pullback := Some pb |}).
Proof.
  eexists. split; [vm_compute; reflexivity|].
  apply (zones_defined_iff_atr one_bar_table []). vm_compute. reflexivity.
Defined.

(** ** The bands never cross *)


